(** * The Weakest Hint: question generation, description cleaning, batch driver

    A shallow embedding of [src/app.py] and [src/description_creator.py].

    Python text is modelled by [string], read as ASCII text; the whitespace
    and case tables are those of the ASCII range (characters above 127 are
    neither whitespace nor cased, unlike in Python).  Python exceptions are values of [exn]; a computation that may
    raise returns a [result].  Calls to [random] read an explicit stream of
    draws, and calls to the text-generation service read an explicit stream of
    responses. *)

From Stdlib Require Import ZArith Ascii String.
From stdpp Require Import base decidable option list strings gmap pretty.
From Equations.Prop Require Import Equations Logic.

(** ** Python primitives *)

Module Py.

(** The exceptions that the modelled code can meet.  [InsufficientCatalogError]
    is the distinguished error named by the specification; no definition of
    this file raises it. *)
Inductive exn : Type :=
| ValueError
| IndexError
| KeyError
| InsufficientCatalogError.

Inductive result (A : Type) : Type :=
| Ok (a : A)
| Raise (e : exn).
Arguments Ok {A} a.
Arguments Raise {A} e.

Definition bind {A B} (m : result A) (k : A -> result B) : result B :=
  match m with
  | Ok a => k a
  | Raise e => Raise e
  end.

Notation "'let*' x := m 'in' k" := (bind m (fun x => k))
  (at level 10, x name, m at level 100, k at level 200).
Notation "'let*' ' p := m 'in' k" :=
  (bind m (fun x => match x with p => k end))
  (at level 10, p pattern, m at level 100, k at level 200).

(** [l[i]] with Python's negative indices. *)
Definition index {A} (l : list A) (i : Z) : result A :=
  let n := Z.of_nat (length l) in
  let j := (if i <? 0 then n + i else i)%Z in
  if ((0 <=? j) && (j <? n))%Z then
    match l !! Z.to_nat j with
    | Some x => Ok x
    | None => Raise IndexError
    end
  else Raise IndexError.

(** [l[i] = x]. *)
Definition set_index {A} (l : list A) (i : Z) (x : A) : result (list A) :=
  let n := Z.of_nat (length l) in
  let j := (if i <? 0 then n + i else i)%Z in
  if ((0 <=? j) && (j <? n))%Z then Ok (<[Z.to_nat j := x]> l)
  else Raise IndexError.

(** [l.pop()]: the list that is left. *)
Definition pop_last {A} (l : list A) : result (list A) :=
  match l with
  | [] => Raise IndexError
  | _ => Ok (take (length l - 1) l)
  end.

(** [l.pop(i)] for [0 <= i]: the element and the list that is left. *)
Definition pop_at {A} (l : list A) (i : nat) : result (A * list A) :=
  match l !! i with
  | Some x => Ok (x, delete i l)
  | None => Raise IndexError
  end.

(** *** Characters *)

(** A [str] is modelled by a [string] of 8-bit characters, read as a text of
    ASCII characters (codes 0 to 127).  The three tables below are those of
    Python on that range: [c.isspace()] holds of the codes 9 to 13 and 28 to
    32, [c.lower()] and [c.upper()] move the 26 letters.  Python's tables
    for the characters beyond ASCII (more white space, such as U+0085 and
    U+00A0, and case mappings that change the length of a text) are not
    modelled: the codes 128 to 255 are left as they are and are no white
    space.  A property that Python's tables beyond ASCII would break is
    stated for ASCII texts, see [Props.is_ascii]. *)
Definition isspace (c : ascii) : bool :=
  let n := nat_of_ascii c in
  ((9 <=? n) && (n <=? 13) || (28 <=? n) && (n <=? 32))%nat.

Definition lower_char (c : ascii) : ascii :=
  let n := nat_of_ascii c in
  if ((65 <=? n) && (n <=? 90))%nat then ascii_of_nat (n + 32) else c.

Definition upper_char (c : ascii) : ascii :=
  let n := nat_of_ascii c in
  if ((97 <=? n) && (n <=? 122))%nat then ascii_of_nat (n - 32) else c.

(** *** Strings *)

Definition str_is_empty (s : string) : bool :=
  match s with
  | EmptyString => true
  | String _ _ => false
  end.

(** [sub in s]. *)
Fixpoint contains (sub s : string) : bool :=
  String.prefix sub s ||
  match s with
  | EmptyString => false
  | String _ s' => contains sub s'
  end.

(** [s.startswith(p)] and [s.endswith(p)]. *)
Definition startswith (s p : string) : bool := String.prefix p s.

Fixpoint endswith (s p : string) : bool :=
  String.eqb s p ||
  match s with
  | EmptyString => false
  | String _ s' => endswith s' p
  end.

(** [s.split(sep)]: [skip] counts the characters of a separator that was just
    matched and is still to be passed over; [cur] is the piece being read. *)
Fixpoint split_aux (sep : string) (skip : nat) (cur s : string) : list string :=
  match s with
  | EmptyString => [cur]
  | String c s' =>
      match skip with
      | S k => split_aux sep k cur s'
      | O =>
          if String.prefix sep s
          then cur :: split_aux sep (String.length sep - 1) "" s'
          else split_aux sep 0 (cur +:+ String c "") s'
      end
  end.

Definition split (s sep : string) : result (list string) :=
  if str_is_empty sep then Raise ValueError else Ok (split_aux sep 0 "" s).

(** [s.replace(old, new)]. *)
Fixpoint replace_aux (old new : string) (skip : nat) (s : string) : string :=
  match s with
  | EmptyString => ""
  | String c s' =>
      match skip with
      | S k => replace_aux old new k s'
      | O =>
          if String.prefix old s
          then new +:+ replace_aux old new (String.length old - 1) s'
          else String c (replace_aux old new 0 s')
      end
  end.

Fixpoint intersperse (new s : string) : string :=
  match s with
  | EmptyString => new
  | String c s' => new +:+ String c (intersperse new s')
  end.

Definition replace (s old new : string) : string :=
  if str_is_empty old then intersperse new s else replace_aux old new 0 s.

(** [s[lo:hi]]. *)
Definition slice_bound (len i : Z) : Z :=
  if (i <? 0)%Z then Z.max 0 (len + i) else Z.min i len.

Definition slice (s : string) (lo hi : Z) : string :=
  let len := Z.of_nat (String.length s) in
  let a := slice_bound len lo in
  let b := slice_bound len hi in
  substring (Z.to_nat a) (Z.to_nat (b - a)) s.

(** [s.split()]: the maximal runs of characters that are not whitespace. *)
Fixpoint split_ws_aux (cur s : string) : list string :=
  match s with
  | EmptyString => if str_is_empty cur then [] else [cur]
  | String c s' =>
      if isspace c
      then (if str_is_empty cur then split_ws_aux "" s'
            else cur :: split_ws_aux "" s')
      else split_ws_aux (cur +:+ String c "") s'
  end.

Definition split_ws (s : string) : list string := split_ws_aux "" s.

(** [s.lower()] and [s.capitalize()] of an ASCII text: the first character
    in upper case, the others in lower case. *)
Fixpoint lower (s : string) : string :=
  match s with
  | EmptyString => ""
  | String c s' => String (lower_char c) (lower s')
  end.

Definition capitalize (s : string) : string :=
  match s with
  | EmptyString => ""
  | String c s' => String (upper_char c) (lower s')
  end.

(** [s.rstrip(chars)], [s.lstrip(chars)] for a predicate on characters, and
    [s.strip()]. *)
Fixpoint rstrip_by (p : ascii -> bool) (s : string) : string :=
  match s with
  | EmptyString => ""
  | String c s' =>
      let r := rstrip_by p s' in
      if str_is_empty r && p c then "" else String c r
  end.

Fixpoint lstrip_by (p : ascii -> bool) (s : string) : string :=
  match s with
  | EmptyString => ""
  | String c s' => if p c then lstrip_by p s' else s
  end.

Fixpoint char_in (chars : string) (c : ascii) : bool :=
  match chars with
  | EmptyString => false
  | String d chars' => Ascii.eqb c d || char_in chars' c
  end.

Definition rstrip (s chars : string) : string := rstrip_by (char_in chars) s.

Definition strip (s : string) : string := lstrip_by isspace (rstrip_by isspace s).

(** [sep.join(l)]. *)
Definition join (sep : string) (l : list string) : string := String.concat sep l.

End Py.

Import Py.

(** An entry of [games.json]. *)
Record Game : Type := { game : string; genre : string }.

#[global] Instance Game_eq_dec : EqDecision Game.
Proof. solve_decision. Defined.

(** ** description_creator.py *)

Module DescriptionCreator.

Definition FALLBACK : string := "Mystery game with secrets".

Definition bad_endings : gset string :=
  {[ "a"; "an"; "the"; "and"; "or"; "to"; "at"; "on"; "in"; "with"; "for";
     "by"; "of" ]}.

Definition newline : string := String (ascii_of_nat 10) "".
Definition dquote : string := String (ascii_of_nat 34) "".
Definition squote : string := "'".

(** The test of the [while] loop of [clean_description]. *)
Definition has_bad_ending (words : list string) : result bool :=
  if 4 <? length words then
    let* w := index words (-1) in
    Ok (bool_decide (rstrip (lower w) ",.!?" ∈ bad_endings))
  else Ok false.

(** The [while] loop of [clean_description]: drop trailing stop words while
    more than four words are left. *)
Equations? strip_bad_endings (words : list string) : result (list string)
  by wf (length words) lt :=
  strip_bad_endings words with inspect (has_bad_ending words) := {
    | exist _ (Raise e) _ := Raise e
    | exist _ (Ok false) _ := Ok words
    | exist _ (Ok true) _ with inspect (pop_last words) := {
        | exist _ (Raise e) _ := Raise e
        | exist _ (Ok words') Hpop := strip_bad_endings words' } }.
Proof.
  destruct words as [|w ws]; [discriminate|].
  injection Hpop as <-.
  rewrite length_take. simpl. lia.
Qed.

(** Lines 38 to 58 of [clean_description]: the words that are left when the
    [while] loop ends. *)
Definition cleaned_words (description : string) : result (list string) :=
  let* lines := split description newline in
  let* line := index lines 0 in
  let* sentences := split line ". " in
  let* first_sentence := index sentences 0 in
  let first_sentence := replace first_sentence "*" "" in
  let first_sentence :=
    if (startswith first_sentence dquote && endswith first_sentence dquote)
       || (startswith first_sentence squote && endswith first_sentence squote)
    then slice first_sentence 1 (-1)
    else first_sentence in
  let words := split_ws first_sentence in
  let words := take 7 words in
  strip_bad_endings words.

Definition clean_description (description : string) : result string :=
  let* words := cleaned_words description in
  if length words <? 4 then Ok FALLBACK
  else
    let* words :=
      (if bool_decide (words = []) then Ok words
       else let* w := index words 0 in set_index words 0 (capitalize w)) in
    Ok (strip (join " " words)).

(** *** The text-generation service

    What [hf_connect] and the access to [r.choices[0].message.content] give:
    a completion, or an exception. *)
Inductive response : Type :=
| Completion (content : string)
| Failure.

(** What the batch driver does to the outside: requests to the service,
    sleeps, and writes of [game_descriptions.json]. *)
Inductive event : Type :=
| Request (title : string)
| Sleep (seconds : nat)
| Save (table : gmap string (list string)).

Record world : Type :=
  { responses : nat -> response;  (* the responses still to come *)
    trace : list event }.         (* what was done so far, oldest first *)

Definition emit (e : event) (w : world) : world :=
  {| responses := responses w; trace := trace w ++ [e] |}.

Definition sleep (seconds : nat) (w : world) : world := emit (Sleep seconds) w.

(** [hf_connect(prompt)] followed by [r.choices[0].message.content]. *)
Definition hf_connect (title : string) (w : world) : response * world :=
  (responses w 0,
   {| responses := fun k => responses w (S k);
      trace := trace w ++ [Request title] |}).

(** [try: ... except Exception: return the fallback]. *)
Definition generate_game_description (title : string) (w : world)
  : string * world :=
  let '(r, w) := hf_connect title w in
  match r with
  | Completion content =>
      match clean_description content with
      | Ok d => (d, w)
      | Raise _ => (FALLBACK, w)
      end
  | Failure => (FALLBACK, w)
  end.

Definition max_retries : nat := 3.

(** The [while len(game_descriptions) < 5] loop of the batch driver. *)
Equations? collect (game_title : string) (game_descriptions : list string)
    (retry_count : nat) (w : world) : list string * world
  by wf (4 * (5 - length game_descriptions) + (max_retries - retry_count)) lt :=
  collect game_title game_descriptions retry_count w
    with inspect (length game_descriptions <? 5) := {
    | exist _ false _ := (game_descriptions, w)
    | exist _ true Hlen
        with inspect (generate_game_description game_title w) := {
        | exist _ (desc, w') _
            with inspect (bool_decide (desc = FALLBACK)) := {
            | exist _ true _
                with inspect (max_retries <=? retry_count + 1) := {
                | exist _ true _ := (game_descriptions, w')
                | exist _ false Hretry :=
                    collect game_title game_descriptions (retry_count + 1)
                      (sleep 60 w') }
            | exist _ false _ :=
                collect game_title (game_descriptions ++ [desc]) 0
                  (sleep 5 w') } } }.
Proof.
  - unfold max_retries.
    destruct retry_count as [|[|[|k]]]; simpl in Hretry; try discriminate; lia.
  - assert (Hlt : length game_descriptions < 5)
      by (apply Nat.ltb_lt; exact Hlen).
    rewrite length_app. simpl. unfold max_retries. lia.
Qed.

(** The [for game in games] loop of the batch driver. *)
Fixpoint process_games (games : list Game)
    (descriptions : gmap string (list string)) (w : world)
  : gmap string (list string) * world :=
  match games with
  | [] => (descriptions, w)
  | g :: games' =>
      let game_title := game g in
      if bool_decide (game_title ∈ dom descriptions)
      then process_games games' descriptions w
      else
        let '(game_descriptions, w) := collect game_title [] 0 w in
        let descriptions := <[game_title := game_descriptions]> descriptions in
        let w := emit (Save descriptions) w in
        let w := sleep 30 w in
        process_games games' descriptions w
  end.

(** [file] is the content of [game_descriptions.json], [None] when the file
    does not exist. *)
Definition generate_descriptions_for_all_games (games : list Game)
    (file : option (gmap string (list string))) (w : world)
  : gmap string (list string) * world :=
  let descriptions :=
    match file with
    | Some d => d
    | None => ∅
    end in
  process_games games descriptions w.

(** *** [fix_mystery_descriptions] *)

(** [[i for i, d in enumerate(descs) if d == the fallback]], counting from
    [i]. *)
Fixpoint mystery_indices_from (i : nat) (descs : list string) : list nat :=
  match descs with
  | [] => []
  | d :: descs' =>
      if bool_decide (d = FALLBACK)
      then i :: mystery_indices_from (S i) descs'
      else mystery_indices_from (S i) descs'
  end.

Definition mystery_indices (descs : list string) : list nat :=
  mystery_indices_from 0 descs.

(** The [while new_desc == the fallback and retry_count < 5] loop. *)
Equations? retry_mystery (game_title : string) (new_desc : string)
    (retry_count : nat) (w : world) : string * world
  by wf (5 - retry_count) lt :=
  retry_mystery game_title new_desc retry_count w
    with inspect (bool_decide (new_desc = FALLBACK) && (retry_count <? 5)) := {
    | exist _ false _ := (new_desc, w)
    | exist _ true Hgo
        with inspect (generate_game_description game_title (sleep 60 w)) := {
        | exist _ (new_desc', w') _ :=
            retry_mystery game_title new_desc' (retry_count + 1) w' } }.
Proof.
  apply andb_true_iff in Hgo as [_ Hlt].
  assert (retry_count < 5) by (apply Nat.ltb_lt; exact Hlt). lia.
Qed.

(** The [for idx in mystery_indices] loop; [descs] is the list stored under
    [game_title], which [descriptions[game_title][idx] = new_desc] updates in
    place. *)
Fixpoint fix_entries (game_title : string) (indices : list nat)
    (descs : list string) (w : world) : result (list string * world) :=
  match indices with
  | [] => Ok (descs, w)
  | idx :: indices' =>
      let '(new_desc, w) := generate_game_description game_title w in
      let '(new_desc, w) := retry_mystery game_title new_desc 0 w in
      let* descs := set_index descs (Z.of_nat idx) new_desc in
      let w := sleep 5 w in
      fix_entries game_title indices' descs w
  end.

(** The [for game_title, descs in descriptions.items()] loop.  [items] are
    the items still to visit, in the order of the file (a dict: each key
    once); [descriptions] is the dict as it is now. *)
Fixpoint fix_items (items : list (string * list string))
    (descriptions : gmap string (list string)) (w : world)
  : result (gmap string (list string) * world) :=
  match items with
  | [] => Ok (descriptions, w)
  | (game_title, descs) :: items' =>
      let mystery := mystery_indices descs in
      if bool_decide (mystery = [])
      then fix_items items' descriptions w
      else
        let* '(descs, w) := fix_entries game_title mystery descs w in
        let descriptions := <[game_title := descs]> descriptions in
        let w := emit (Save descriptions) w in
        fix_items items' descriptions w
  end.

(** [items] is the content of [game_descriptions.json], in the order of the
    file. *)
Definition fix_mystery_descriptions (items : list (string * list string))
    (w : world) : result (gmap string (list string) * world) :=
  fix_items items (list_to_map items) w.

End DescriptionCreator.

Import DescriptionCreator.


(** ** The [random] module *)

Module Random.

(** The source of randomness: an infinite stream of draws.  A computation
    that uses [random] reads the head of the stream and leaves the tail. *)
Definition rng : Type := nat -> nat.

Definition M (A : Type) : Type := rng -> result (A * rng).

Definition ret {A} (a : A) : M A := fun g => Ok (a, g).

Definition bindM {A B} (m : M A) (k : A -> M B) : M B :=
  fun g =>
    match m g with
    | Ok (a, g') => k a g'
    | Raise e => Raise e
    end.

Definition lift {A} (r : result A) : M A :=
  fun g =>
    match r with
    | Ok a => Ok (a, g)
    | Raise e => Raise e
    end.

Notation "'let!' x := m 'in' k" := (bindM m (fun x => k))
  (at level 10, x name, m at level 100, k at level 200).
Notation "'let!' ' p := m 'in' k" :=
  (bindM m (fun x => match x with p => k end))
  (at level 10, p pattern, m at level 100, k at level 200).

(** [_randbelow(n)] for [0 < n]: every value below [n] is the outcome of some
    draw, and every draw gives a value below [n]. *)
Definition randbelow (n : nat) : M nat :=
  fun g => Ok (g 0 mod n, fun k => g (S k)).

(** [random.randint(a, b)]: [ValueError] on an empty range. *)
Definition randint (a b : Z) : M Z :=
  if (b <? a)%Z then lift (Raise ValueError)
  else let! r := randbelow (Z.to_nat (b - a + 1)) in ret (a + Z.of_nat r)%Z.

(** [random.choice(seq)]: [IndexError] on an empty sequence. *)
Definition choice {A} (seq : list A) : M A :=
  if bool_decide (length seq = 0) then lift (Raise IndexError)
  else let! r := randbelow (length seq) in lift (index seq (Z.of_nat r)).

(** [x[i], x[j] = x[j], x[i]]. *)
Definition swap {A} (x : list A) (i j : nat) : list A :=
  match x !! i, x !! j with
  | Some a, Some b => <[j := a]> (<[i := b]> x)
  | _, _ => x
  end.

(** [random.shuffle(x)]: [for i in reversed(range(1, len(x)))], swap [x[i]]
    with [x[j]] for a [j] drawn below [i + 1]. *)
Fixpoint shuffle_from {A} (i : nat) (x : list A) : M (list A) :=
  match i with
  | O => ret x
  | S i' => let! j := randbelow (S i) in shuffle_from i' (swap x i j)
  end.

Definition shuffle {A} (x : list A) : M (list A) :=
  shuffle_from (length x - 1) x.

End Random.

Import Random.

(** ** app.py *)

Module App.

Record Question : Type :=
  { description : string; correct_answer : string; choices : list string }.

(** [l.pop(i)] with Python's negative indices. *)
Definition pop {A} (l : list A) (i : Z) : result (A * list A) :=
  let n := Z.of_nat (length l) in
  let j := (if i <? 0 then n + i else i)%Z in
  if ((0 <=? j) && (j <? n))%Z then pop_at l (Z.to_nat j)
  else Raise IndexError.

(** [d[k]] on a dict. *)
Definition getitem {V} (d : gmap string V) (k : string) : result V :=
  match d !! k with
  | Some v => Ok v
  | None => Raise KeyError
  end.

Definition len {A} (l : list A) : Z := Z.of_nat (length l).

(** The body of the [for] loop of [create_questions]: one question, and the
    pool that is left. *)
Definition next_question (descriptions : gmap string (list string))
    (available_games : list Game) : M (Question * list Game) :=
  let! idx := randint 0 (len available_games - 1) in
  let! '(random_game, available_games) := lift (pop available_games idx) in
  let game_title := game random_game in
  let game_genre := genre random_game in
  let same_genre_games :=
    filter (fun g => genre g = game_genre) available_games in
  let! same_genre_choice :=
    (if bool_decide (same_genre_games ≠ [])
     then let! g := choice same_genre_games in ret (game g)
     else
       let diff_genre_games :=
         filter (fun g => genre g ≠ game_genre) available_games in
       let! g := choice diff_genre_games in ret (game g)) in
  let diff_genre_games :=
    filter (fun g => genre g ≠ game_genre) available_games in
  let! idx1 := randint 0 (len diff_genre_games - 1) in
  let! '(first_choice, diff_genre_games) := lift (pop diff_genre_games idx1) in
  let! idx2 := randint 0 (len diff_genre_games - 1) in
  let! '(second_choice, diff_genre_games) := lift (pop diff_genre_games idx2) in
  let diff_genre_choices := [game first_choice; game second_choice] in
  let! candidates := lift (getitem descriptions game_title) in
  let! description := choice candidates in
  let all_choices := [game_title; same_genre_choice] ++ diff_genre_choices in
  let! all_choices := shuffle all_choices in
  ret ({| description := description;
          correct_answer := game_title;
          choices := all_choices |}, available_games).

(** [for i in range(n)]: the rounds that are left. *)
Fixpoint question_rounds (n : nat) (descriptions : gmap string (list string))
    (available_games : list Game) (questions : list Question)
    : M (list Question) :=
  match n with
  | O => ret questions
  | S n' =>
      let! '(q, available_games) := next_question descriptions available_games in
      question_rounds n' descriptions available_games (questions ++ [q])
  end.

Definition create_questions (games : list Game)
    (descriptions : gmap string (list string)) : M (list Question) :=
  question_rounds 5 descriptions games [].

(** *** The [/answer] route *)

(** The per-player session: a dict with these three keys, each present or
    not. *)
Record Session : Type :=
  { CURRENT_QUESTION_IDX : option Z;
    SCORE : option Z;
    QUESTIONS : option (list Question) }.

(** [session.get(key, default)] and [session[key]]. *)
Definition get {V} (field : option V) (default : V) : V :=
  match field with
  | Some v => v
  | None => default
  end.

Definition getkey {V} (field : option V) : result V :=
  match field with
  | Some v => Ok v
  | None => Raise KeyError
  end.

Inductive NavButton : Type := NextButton | SeeResultsButton.

(** The [Section] that [post] returns: its heading, its message and its
    button. *)
Record Feedback : Type :=
  { heading : string; message : string; button : NavButton }.

Definition post (session : Session) (choice_idx : Z)
  : result (Session * Feedback) :=
  let q_idx := get (CURRENT_QUESTION_IDX session) 0%Z in
  let* questions := getkey (QUESTIONS session) in
  let* q := index questions q_idx in
  let* chosen_answer := index (choices q) choice_idx in
  let is_correct := bool_decide (chosen_answer = correct_answer q) in
  let '(session, heading, message) :=
    if is_correct
    then ({| CURRENT_QUESTION_IDX := CURRENT_QUESTION_IDX session;
             SCORE := Some (get (SCORE session) 0 + 1)%Z;
             QUESTIONS := QUESTIONS session |},
          "Correct!",
          "'" +:+ correct_answer q +:+ "' is the right answer!")
    else (session,
          "Incorrect!",
          "The correct answer is '" +:+ correct_answer q +:+ "'.") in
  let* questions := getkey (QUESTIONS session) in
  let session' :=
    {| CURRENT_QUESTION_IDX := Some (q_idx + 1)%Z;
       SCORE := SCORE session;
       QUESTIONS := QUESTIONS session |} in
  if (q_idx + 1 <? len questions)%Z
  then Ok (session',
           {| heading := heading; message := message; button := NextButton |})
  else Ok (session',
           {| heading := heading; message := message;
              button := SeeResultsButton |}).

(** *** The question view *)

(** The [Button] that [AnswerButton] returns: its text and its attributes. *)
Record Button : Type :=
  { label : string;
    hx_post : string;
    hx_vals : string;
    hx_target : string;
    hx_swap : string;
    cls : string }.

Definition color_names : list string := ["green"; "purple"; "orange"; "pink"].

(** [f'{{"choice_idx": {idx}}}']. *)
Definition choice_idx_vals (idx : Z) : string :=
  "{" +:+ dquote +:+ "choice_idx" +:+ dquote +:+ ": " +:+ pretty idx +:+ "}".

Definition AnswerButton (choice : string) (idx : Z) : result Button :=
  let* color := index color_names idx in
  let green := bool_decide (color = "green") in
  let color_cls :=
    "bg-" +:+ color +:+ "-700 text-white active:ring-" +:+ color +:+ "-500 "
    +:+ "dark:bg-" +:+ color +:+ "-" +:+ (if green then "500" else "400")
    +:+ " dark:text-black "
    +:+ "hover:bg-" +:+ color +:+ "-800 dark:hover:bg-" +:+ color +:+ "-"
    +:+ (if green then "600" else "500") +:+ " "
    +:+ "focus-visible:ring-" +:+ color +:+ "-500" in
  let base_cls :=
    "px-6 py-3 rounded text-lg font-semibold focus-visible:ring-4 "
    +:+ "focus-visible:ring-offset-4 focus-visible:outline-none "
    +:+ "active:ring-4 active:ring-offset-4 transition-shadow "
    +:+ "h-24 flex items-center justify-center" in
  Ok {| label := choice;
        hx_post := "/answer";
        hx_vals := choice_idx_vals idx;
        hx_target := "#quiz-content";
        hx_swap := "outerHTML swap:0.2s settle:0.2s";
        cls := base_cls +:+ " " +:+ color_cls |}.

(** [[AnswerButton(choice, i) for i, choice in enumerate(choices)]], counting
    from [i]. *)
Fixpoint answer_buttons_from (i : nat) (choices : list string)
  : result (list Button) :=
  match choices with
  | [] => Ok []
  | choice :: choices' =>
      let* b := AnswerButton choice (Z.of_nat i) in
      let* bs := answer_buttons_from (S i) choices' in
      Ok (b :: bs)
  end.

(** The [Section] that [render_question] returns: the text of its heading, of
    its description and of its prompt, and its buttons. *)
Record QuestionView : Type :=
  { q_heading : string;
    q_description : string;
    q_prompt : string;
    q_buttons : list Button }.

Definition render_question (q_data : Question) (q_index : Z)
  : result QuestionView :=
  let* buttons := answer_buttons_from 0 (choices q_data) in
  Ok {| q_heading := "Question " +:+ pretty (q_index + 1)%Z +:+ " of 5";
        q_description := description q_data +:+ ".";
        q_prompt := "Is it...";
        q_buttons := buttons |}.

(** *** The other routes *)

(** [session.clear()] in the [/] route. *)
Definition home (session : Session) : Session :=
  {| CURRENT_QUESTION_IDX := None; SCORE := None; QUESTIONS := None |}.

(** The [/generate_questions] route. *)
Definition generate_questions (games : list Game)
    (descriptions : gmap string (list string)) (session : Session)
  : M (Session * QuestionView) :=
  let! questions := create_questions games descriptions in
  let session :=
    {| CURRENT_QUESTION_IDX := Some 0%Z;
       SCORE := Some 0%Z;
       QUESTIONS := Some questions |} in
  let! q := lift (index questions 0) in
  let! view := lift (render_question q 0) in
  ret (session, view).

(** The [/question] route. *)
Definition question (session : Session) : result QuestionView :=
  let q_idx := get (CURRENT_QUESTION_IDX session) 0%Z in
  let* questions := getkey (QUESTIONS session) in
  let* q := index questions q_idx in
  render_question q q_idx.

Inductive Emoji : Type := Trophy | Star | Invader | Joystick | Television.

(** The [Section] of the [/results] route: its emoji, its score line and its
    message. *)
Record ResultsView : Type :=
  { r_emoji : Emoji; r_score : string; r_message : string }.

Definition results (session : Session) : ResultsView :=
  let score := get (SCORE session) 0%Z in
  let total := 5%Z in
  let '(emoji, message) :=
    if bool_decide (score = total)
    then (Trophy, "Every answer landed like a headshot. Boom!")
    else if (4 <=? score)%Z
    then (Star, "One slip, but the rest were clean combos.")
    else if (3 <=? score)%Z
    then (Invader, "Not quite a speed run.")
    else if (2 <=? score)%Z
    then (Joystick, "Button masher!")
    else (Television, "Every expert was once a beginner.") in
  {| r_emoji := emoji;
     r_score := pretty score +:+ " out of " +:+ pretty total;
     r_message := message |}.

End App.

Import App.


(** ** Notions used to state the properties *)

Module Props.

(** Every character of [s] satisfies [p]. *)
Fixpoint str_all (p : ascii -> bool) (s : string) : bool :=
  match s with
  | EmptyString => true
  | String c s' => p c && str_all p s'
  end.

Definition no_space (s : string) : bool :=
  str_all (fun c => negb (isspace c)) s.

(** A word as [str.split()] returns them: not empty, no whitespace. *)
Definition is_token (w : string) : Prop := w ≠ "" ∧ no_space w = true.

(** The effect of [words[0] = words[0].capitalize()] under [if words]. *)
Definition capitalize_first (words : list string) : list string :=
  match words with
  | [] => []
  | w :: ws => capitalize w :: ws
  end.

(** The number of whitespace-delimited words of a string. *)
Definition word_count (s : string) : nat := length (split_ws s).

(** The last word of [s], lower-cased and without trailing punctuation, is
    one of [bad_endings]. *)
Definition ends_with_stop_word (s : string) : bool :=
  match last (split_ws s) with
  | Some w => bool_decide (rstrip (lower w) ",.!?" ∈ bad_endings)
  | None => false
  end.


Definition has_star (s : string) : bool := contains "*" s.

Definition not_star (c : ascii) : bool := negb (Ascii.eqb c "*").

(** Every character of [s] is an ASCII character (code below 128): the
    texts on which the whitespace and case tables of this file are those of
    Python. *)
Definition is_ascii (s : string) : bool :=
  str_all (fun c => (nat_of_ascii c <? 128)%nat) s.

Definition tab : string := String (ascii_of_nat 9) "".

(** The description that [generate_game_description] makes of a response. *)
Definition desc_of (r : response) : string :=
  match r with
  | Completion content =>
      match clean_description content with
      | Ok d => d
      | Raise _ => FALLBACK
      end
  | Failure => FALLBACK
  end.

(** The descriptions made of the first [n] responses of a stream. *)
Fixpoint outcomes (rs : nat -> response) (n : nat) : list string :=
  match n with
  | O => []
  | S n' => desc_of (rs 0) :: outcomes (fun k => rs (S k)) n'
  end.

(** The number of consecutive fallback results at the end of [l], counted
    from [rc]: a fallback adds one, any other result resets the count. *)
Definition retries_after (rc : nat) (l : list string) : nat :=
  fold_left (fun rc d => if bool_decide (d = FALLBACK) then S rc else 0) l rc.

Definition consecutive_fallbacks (l : list string) : nat := retries_after 0 l.

(** The results that the batch driver keeps: those that are not the
    fallback phrase. *)
Definition kept (l : list string) : list string :=
  filter (fun d => d ≠ FALLBACK) l.

(** The titles for which a request was sent, oldest first. *)
Definition requested (tr : list event) : list string :=
  omap (fun e => match e with Request t => Some t | _ => None end) tr.

(** The tables that were written to [game_descriptions.json], oldest
    first. *)
Definition saved (tr : list event) : list (gmap string (list string)) :=
  omap (fun e => match e with Save d => Some d | _ => None end) tr.

Definition is_save (e : event) : bool :=
  match e with
  | Save _ => true
  | _ => false
  end.

(** The number of descriptions stored for a title. *)
Definition stored_count (d : gmap string (list string)) (t : string) : nat :=
  match d !! t with
  | Some ds => length ds
  | None => 0
  end.

(** The number of entries of a description file that are the fallback
    phrase. *)
Definition fallback_count (items : list (string * list string)) : nat :=
  sum_list ((fun item => length (filter (fun d => d = FALLBACK) item.2))
              <$> items).

(** The number of games of a genre in a list of games. *)
Definition genre_count (genre_name : string) (games : list Game) : nat :=
  length (filter (fun x => genre x = genre_name) games).

(** The session of a quiz in progress: the index of the current question,
    the score and the questions. *)
Definition in_progress (q_idx score : Z) (questions : list Question)
  : Session :=
  {| CURRENT_QUESTION_IDX := Some q_idx;
     SCORE := Some score;
     QUESTIONS := Some questions |}.

(** The session that the [/generate_questions] route makes of a list of
    questions. *)
Definition fresh (questions : list Question) : Session :=
  in_progress 0 0 questions.

(** A sequence of requests to the [/answer] route, one per element of
    [answers]. *)
Fixpoint play (session : Session) (answers : list Z) : result Session :=
  match answers with
  | [] => Ok session
  | a :: answers' =>
      let* '(session', _) := post session a in
      play session' answers'
  end.

(** The choice at index [a] of question [q] is its correct answer. *)
Definition picks_correct (q : Question) (a : Z) : bool :=
  match index (choices q) a with
  | Ok c => bool_decide (c = correct_answer q)
  | Raise _ => false
  end.

(** The number of correct answers when [answers] are given to [questions]
    in order. *)
Fixpoint correct_picks (questions : list Question) (answers : list Z) : Z :=
  match questions, answers with
  | q :: questions', a :: answers' =>
      ((if picks_correct q a then 1 else 0) + correct_picks questions' answers')%Z
  | _, _ => 0%Z
  end.

(** The world when the process starts: nothing done yet. *)
Definition start (service : nat -> response) : world :=
  {| responses := service; trace := [] |}.

End Props.

Import Props.

(** ** Concrete inputs *)

Module Examples.

(** A catalog with unique titles in which no two games share a genre. *)
Definition catalog : list Game :=
  [ {| game := "Doom"; genre := "FPS" |};
    {| game := "Tetris"; genre := "Puzzle" |};
    {| game := "FIFA"; genre := "Sports" |};
    {| game := "Civilization"; genre := "Strategy" |};
    {| game := "Skyrim"; genre := "RPG" |};
    {| game := "Forza"; genre := "Racing" |};
    {| game := "Mario"; genre := "Platformer" |};
    {| game := "Zelda"; genre := "Adventure" |} ].

(** A catalog with unique titles in which every genre has two games. *)
Definition paired_catalog : list Game :=
  [ {| game := "Doom"; genre := "FPS" |};
    {| game := "Halo"; genre := "FPS" |};
    {| game := "Tetris"; genre := "Puzzle" |};
    {| game := "Portal"; genre := "Puzzle" |};
    {| game := "FIFA"; genre := "Sports" |};
    {| game := "Madden"; genre := "Sports" |};
    {| game := "Skyrim"; genre := "RPG" |};
    {| game := "Fallout"; genre := "RPG" |};
    {| game := "Forza"; genre := "Racing" |};
    {| game := "Burnout"; genre := "Racing" |} ].

(** A catalog of two games. *)
Definition small_catalog : list Game :=
  [ {| game := "Doom"; genre := "FPS" |};
    {| game := "Tetris"; genre := "Puzzle" |} ].

(** A description table with one description for every title. *)
Definition table_for (games : list Game) : gmap string (list string) :=
  list_to_map ((fun g => (game g, ["Things happen on a screen"])) <$> games).

(** The source of randomness whose draws are all 0. *)
Definition zeros : rng := fun _ => 0.

Definition question : Question :=
  {| description := "Angry metal shotguns demon confetti";
     correct_answer := "Doom";
     choices := ["Tetris"; "FIFA"; "Skyrim"; "Doom"] |}.

Definition session : Session :=
  {| CURRENT_QUESTION_IDX := Some 0%Z;
     SCORE := Some 0%Z;
     QUESTIONS := Some [question] |}.

(** A service that fails, answers, fails twice, answers one word, and then
    answers well. *)
Definition flaky (k : nat) : response :=
  nth k [Failure; Completion "guessing with explosive consequences"; Failure;
         Failure; Completion "Wow"]
      (Completion "two lines chasing one ball").

(** A service that always answers well, and a service that is down. *)
Definition healthy (k : nat) : response :=
  Completion "two lines chasing one ball".

Definition down (k : nat) : response := Failure.

End Examples.

(** ** Facts about the Python primitives *)

Section StringFacts.

Lemma str_app_cons c s t : String c s +:+ t = String c (s +:+ t).
Proof. reflexivity. Qed.

Lemma str_app_nil_l s : "" +:+ s = s.
Proof. reflexivity. Qed.

Lemma str_app_nil_r s : s +:+ "" = s.
Proof. induction s as [|c s IH]; [done|]. by rewrite str_app_cons, IH. Qed.

Lemma str_app_assoc s t u : (s +:+ t) +:+ u = s +:+ (t +:+ u).
Proof. induction s as [|c s IH]; [done|]. by rewrite !str_app_cons, IH. Qed.

Lemma str_app_empty s t : s +:+ t = "" → s = "" ∧ t = "".
Proof. destruct s; [done|]. rewrite str_app_cons. discriminate. Qed.

Lemma str_all_app p s t : str_all p (s +:+ t) = str_all p s && str_all p t.
Proof.
  induction s as [|c s IH]; [done|].
  rewrite str_app_cons. simpl. rewrite IH. by rewrite andb_assoc.
Qed.

Lemma isspace_space : isspace " " = true.
Proof. reflexivity. Qed.

Lemma isspace_upper c : isspace (upper_char c) = isspace c.
Proof. destruct c as [[] [] [] [] [] [] [] []]; reflexivity. Qed.

Lemma isspace_lower c : isspace (lower_char c) = isspace c.
Proof. destruct c as [[] [] [] [] [] [] [] []]; reflexivity. Qed.

Lemma upper_upper c : upper_char (upper_char c) = upper_char c.
Proof. destruct c as [[] [] [] [] [] [] [] []]; reflexivity. Qed.

Lemma lower_lower_char c : lower_char (lower_char c) = lower_char c.
Proof. destruct c as [[] [] [] [] [] [] [] []]; reflexivity. Qed.

Lemma lower_lower s : lower (lower s) = lower s.
Proof.
  induction s as [|c s IH]; [done|]. simpl. by rewrite lower_lower_char, IH.
Qed.

Lemma capitalize_capitalize w : capitalize (capitalize w) = capitalize w.
Proof. destruct w as [|c w]; [done|]. simpl. by rewrite upper_upper, lower_lower. Qed.

Lemma no_space_lower s : no_space (lower s) = no_space s.
Proof.
  induction s as [|c s IH]; [done|].
  unfold no_space in *. simpl. by rewrite isspace_lower, IH.
Qed.

Lemma is_token_capitalize w : is_token w → is_token (capitalize w).
Proof.
  intros [Hne Hns]. destruct w as [|c w]; [done|]. split; [done|].
  unfold no_space in *. simpl in *.
  rewrite isspace_upper. fold (no_space (lower w)). rewrite no_space_lower.
  exact Hns.
Qed.

(** *** [index], [set_index] *)

Lemma index_0 {A} (l : list A) :
  index l 0 = match l with [] => Raise IndexError | x :: _ => Ok x end.
Proof.
  destruct l as [|x l]; [done|]. unfold index.
  replace ((0 <=? 0)%Z && (0 <? Z.of_nat (length (x :: l)))%Z) with true; [done|].
  symmetry. apply andb_true_iff. split; [done|].
  apply Z.ltb_lt. simpl. lia.
Qed.

Lemma index_last {A} (l : list A) :
  index l (-1) = match last l with Some x => Ok x | None => Raise IndexError end.
Proof.
  unfold index. rewrite last_lookup.
  destruct l as [|x l]; [done|].
  change (-1 <? 0)%Z with true. cbv iota.
  replace ((0 <=? Z.of_nat (length (x :: l)) + -1)%Z &&
           (Z.of_nat (length (x :: l)) + -1 <? Z.of_nat (length (x :: l)))%Z)
    with true.
  - replace (Z.to_nat (Z.of_nat (length (x :: l)) + -1))
      with (Init.Nat.pred (length (x :: l))) by (simpl; lia).
    done.
  - symmetry. apply andb_true_iff. split; [apply Z.leb_le | apply Z.ltb_lt];
      simpl; lia.
Qed.

Lemma set_index_0 {A} (x y : A) (l : list A) :
  set_index (x :: l) 0 y = Ok (y :: l).
Proof.
  unfold set_index.
  replace ((0 <=? 0)%Z && (0 <? Z.of_nat (length (x :: l)))%Z) with true; [done|].
  symmetry. apply andb_true_iff. split; [done|].
  apply Z.ltb_lt. simpl. lia.
Qed.

(** *** [split] *)

Lemma split_aux_cons sep k cur s : ∃ h t, split_aux sep k cur s = h :: t.
Proof.
  revert k cur. induction s as [|c s IH]; intros k cur; cbn [split_aux]; [eauto|].
  destruct k as [|k]; [|apply IH].
  destruct (String.prefix sep (String c s)); [eauto | apply IH].
Qed.

Lemma split_head_ok s sep :
  str_is_empty sep = false →
  ∃ h, (let* l := split s sep in index l 0) = Ok h.
Proof.
  intros Hsep. unfold split. rewrite Hsep. simpl.
  destruct (split_aux_cons sep 0 "" s) as (h & t & ->).
  rewrite index_0. eauto.
Qed.

Lemma contains_cons sub c s :
  contains sub (String c s) = false →
  String.prefix sub (String c s) = false ∧ contains sub s = false.
Proof. simpl. intros H. by apply orb_false_iff in H. Qed.

Lemma split_aux_absent sep cur s :
  contains sep s = false → split_aux sep 0 cur s = [cur +:+ s].
Proof.
  revert cur. induction s as [|c s IH]; intros cur Hs.
  - simpl. by rewrite str_app_nil_r.
  - apply contains_cons in Hs as [Hp Hs].
    cbn [split_aux]. rewrite Hp, (IH _ Hs), str_app_assoc. done.
Qed.


(** *** [split()], [join], [strip] *)

Lemma split_ws_aux_tokens cur s :
  no_space cur = true → Forall is_token (split_ws_aux cur s).
Proof.
  revert cur. induction s as [|c s IH]; intros cur Hcur; simpl.
  - destruct cur; simpl; [constructor|].
    constructor; [by split | constructor].
  - destruct (isspace c) eqn:Hc.
    + destruct cur; simpl; [by apply IH|].
      constructor; [by split | by apply IH].
    + apply IH. unfold no_space in *. rewrite str_all_app, Hcur. simpl.
      by rewrite Hc.
Qed.

Lemma split_ws_tokens s : Forall is_token (split_ws s).
Proof. by apply split_ws_aux_tokens. Qed.

Lemma split_ws_aux_word cur w rest :
  no_space w = true →
  split_ws_aux cur (w +:+ rest) = split_ws_aux (cur +:+ w) rest.
Proof.
  revert cur. induction w as [|c w IH]; intros cur Hw.
  - by rewrite str_app_nil_l, str_app_nil_r.
  - unfold no_space in Hw. simpl in Hw. apply andb_true_iff in Hw as [Hc Hw].
    rewrite str_app_cons. cbn [split_ws_aux].
    apply negb_true_iff in Hc. rewrite Hc.
    rewrite (IH _ Hw), str_app_assoc. done.
Qed.

Lemma join_cons_cons sep x y l :
  join sep (x :: y :: l) = x +:+ sep +:+ join sep (y :: l).
Proof. reflexivity. Qed.

Lemma split_ws_join ws : Forall is_token ws → split_ws (join " " ws) = ws.
Proof.
  induction 1 as [|x l [Hne Hns] Hl IH]; [done|].
  destruct l as [|y l].
  - unfold split_ws. simpl. rewrite <- (str_app_nil_r x) at 1.
    rewrite split_ws_aux_word by done. simpl. by destruct x.
  - rewrite join_cons_cons. unfold split_ws.
    rewrite split_ws_aux_word by done. rewrite str_app_nil_l.
    rewrite str_app_cons. cbn [split_ws_aux]. rewrite isspace_space.
    destruct x; [done|]. simpl. f_equal. exact IH.
Qed.

Lemma rstrip_by_token p w :
  w ≠ "" → str_all (fun c => negb (p c)) w = true → rstrip_by p w = w.
Proof.
  induction w as [|c w IH]; intros Hne Hw; [done|].
  simpl in *. apply andb_true_iff in Hw as [Hc Hw].
  apply negb_true_iff in Hc. rewrite Hc, andb_false_r.
  destruct w as [|d w]; [done|]. by rewrite IH.
Qed.

Lemma rstrip_by_app p a b :
  b ≠ "" → rstrip_by p b = b → rstrip_by p (a +:+ b) = a +:+ b.
Proof.
  intros Hne Hb. induction a as [|c a IH]; [done|].
  rewrite str_app_cons. simpl. rewrite IH.
  destruct (a +:+ b) eqn:E; [|done].
  by apply str_app_empty in E as [_ ?].
Qed.

Lemma join_tokens_nonempty x l : x ≠ "" → join " " (x :: l) ≠ "".
Proof.
  intros Hx. destruct l as [|y l]; [done|].
  rewrite join_cons_cons. intros [? _]%str_app_empty. done.
Qed.

Lemma rstrip_join ws :
  Forall is_token ws → rstrip_by isspace (join " " ws) = join " " ws.
Proof.
  induction 1 as [|x l [Hne Hns] Hl IH]; [done|].
  destruct l as [|y l].
  - by apply rstrip_by_token.
  - rewrite join_cons_cons.
    apply rstrip_by_app.
    + rewrite str_app_cons. done.
    + rewrite str_app_cons, str_app_nil_l. cbn [rstrip_by]. rewrite IH.
      inversion Hl as [|? ? [Hy _] _]; subst.
      pose proof (join_tokens_nonempty y l Hy) as Hj.
      destruct (join " " (y :: l)); done.
Qed.

Lemma lstrip_join ws :
  Forall is_token ws → lstrip_by isspace (join " " ws) = join " " ws.
Proof.
  intros Hws. destruct Hws as [|x l [Hne Hns] Hl]; [done|].
  assert (Hx : ∃ c x', x = String c x' ∧ isspace c = false).
  { destruct x as [|c x']; [done|]. unfold no_space in Hns. simpl in Hns.
    apply andb_true_iff in Hns as [Hc _]. apply negb_true_iff in Hc. eauto. }
  destruct Hx as (c & x' & -> & Hc).
  destruct l as [|y l].
  - simpl. by rewrite Hc.
  - rewrite join_cons_cons, str_app_cons. simpl. by rewrite Hc.
Qed.

Lemma strip_join ws : Forall is_token ws → strip (join " " ws) = join " " ws.
Proof. intros Hws. unfold strip. by rewrite rstrip_join, lstrip_join. Qed.

End StringFacts.

(** ** Facts about [clean_description] *)

Section CleanFacts.

Lemma has_bad_ending_last words :
  has_bad_ending words =
  Ok ((4 <? length words) &&
      match last words with
      | Some w => bool_decide (rstrip (lower w) ",.!?" ∈ bad_endings)
      | None => false
      end).
Proof.
  unfold has_bad_ending. destruct (4 <? length words) eqn:Hlen; [|done].
  rewrite index_last. destruct (last words) as [w|] eqn:Hlast; [done|].
  apply last_None in Hlast. subst. discriminate.
Qed.

Lemma strip_bad_endings_spec words :
  ∃ k, strip_bad_endings words = Ok (take k words) ∧
       has_bad_ending (take k words) = Ok false.
Proof.
  funelim (strip_bad_endings words).
  - exists (length words). by rewrite firstn_all.
  - match goal with H : has_bad_ending ?w = Raise _ |- _ =>
      pose proof (has_bad_ending_last w) as H'; rewrite H in H'; discriminate
    end.
  - match goal with IH : ∃ k, strip_bad_endings _ = _ ∧ _ |- _ =>
      destruct IH as (k & Hk & Hbad) end.
    match goal with H : pop_last words = Ok _ |- _ => rename H into Hpop end.
    destruct words as [|w ws]; [discriminate|].
    injection Hpop as <-.
    rewrite take_take in Hk, Hbad. eauto.
  - match goal with H : pop_last words = Raise _ |- _ => rename H into Hpop end.
    match goal with H : has_bad_ending words = Ok true |- _ =>
      rename H into Hbad end.
    destruct words as [|w ws]; [|discriminate]. discriminate.
Qed.

Lemma clean_description_shape raw :
  ∃ words,
    cleaned_words raw = Ok words ∧
    length words ≤ 7 ∧
    Forall is_token words ∧
    has_bad_ending words = Ok false ∧
    clean_description raw =
      Ok (if length words <? 4 then FALLBACK
          else join " " (capitalize_first words)).
Proof.
  unfold clean_description, cleaned_words.
  destruct (split_head_ok raw newline eq_refl) as (line & Hline).
  unfold bind in Hline |- *.
  destruct (split raw newline) as [lines|]; [|discriminate].
  rewrite Hline.
  destruct (split_head_ok line ". " eq_refl) as (fs & Hfs).
  unfold bind in Hfs.
  destruct (split line ". ") as [sentences|]; [|discriminate].
  rewrite Hfs.
  set (fs' := if _ : bool then slice _ 1 (-1) else replace fs "*" "").
  destruct (strip_bad_endings_spec (take 7 (split_ws fs'))) as (k & -> & Hbad).
  set (words := take k (take 7 (split_ws fs'))) in *.
  assert (Htok : Forall is_token words).
  { unfold words. do 2 apply Forall_take. apply split_ws_tokens. }
  exists words. split; [done|]. split.
  { unfold words. rewrite !length_take. lia. }
  split; [done|]. split; [done|].
  destruct (length words <? 4) eqn:Hlen; [done|].
  destruct words as [|w ws] eqn:Hw; [discriminate|].
  rewrite bool_decide_eq_false_2 by done.
  rewrite index_0, set_index_0. cbn [capitalize_first].
  rewrite strip_join; [done|].
  inversion Htok; subst. constructor; [by apply is_token_capitalize | done].
Qed.


Lemma str_all_impl (p q : ascii → bool) s :
  (∀ c, p c = true → q c = true) → str_all p s = true → str_all q s = true.
Proof.
  intros Hpq. induction s as [|c s IH]; [done|]. simpl.
  intros [Hc Hs]%andb_true_iff. by rewrite (Hpq _ Hc), IH.
Qed.

Lemma contains_char_absent c s :
  str_all (fun d => negb (Ascii.eqb c d)) s = true →
  contains (String c "") s = false.
Proof.
  induction s as [|d s IH]; [done|]. simpl.
  intros [Hd Hs]%andb_true_iff. rewrite (IH Hs), orb_false_r.
  apply negb_true_iff, Ascii.eqb_neq in Hd. by destruct (ascii_dec c d).
Qed.

Lemma join_no_newline ws :
  Forall is_token ws → contains newline (join " " ws) = false.
Proof.
  intros Hws. apply contains_char_absent.
  assert (Htok : ∀ w, is_token w →
    str_all (fun d => negb (Ascii.eqb (ascii_of_nat 10) d)) w = true).
  { intros w [_ Hw]. revert Hw. apply str_all_impl.
    intros c. by destruct c as [[] [] [] [] [] [] [] []]. }
  induction Hws as [|x l Hx Hl IH]; [done|].
  destruct l as [|y l]; [by apply Htok|].
  rewrite join_cons_cons, !str_all_app, (Htok _ Hx), IH. done.
Qed.


Lemma capitalize_first_tokens ws :
  Forall is_token ws → Forall is_token (capitalize_first ws).
Proof.
  destruct 1 as [|w ws Hw Hws]; [done|].
  constructor; [by apply is_token_capitalize | done].
Qed.


Lemma length_capitalize_first ws : length (capitalize_first ws) = length ws.
Proof. by destruct ws. Qed.


End CleanFacts.

(** ** Where the characters of the result come from *)

Section CleanChars.

Lemma str_all_substring p n m s :
  str_all p s = true → str_all p (substring n m s) = true.
Proof.
  revert n m. induction s as [|c s IH]; intros n m Hs.
  - by destruct n, m.
  - cbn [str_all] in Hs. apply andb_true_iff in Hs as [Hc Hs].
    destruct n as [|n]; destruct m as [|m]; cbn [substring]; try done.
    + cbn [str_all]. by rewrite Hc, IH.
    + by apply IH.
    + by apply IH.
Qed.

Lemma split_ws_aux_all p cur s :
  str_all p cur = true → str_all p s = true →
  Forall (fun w => str_all p w = true) (split_ws_aux cur s).
Proof.
  revert cur. induction s as [|c s IH]; intros cur Hcur Hs; cbn [split_ws_aux].
  - destruct cur; cbn [str_is_empty]; [constructor | by repeat constructor].
  - cbn [str_all] in Hs. apply andb_true_iff in Hs as [Hc Hs].
    destruct (isspace c).
    + destruct cur; cbn [str_is_empty]; [by apply IH|].
      constructor; [done | by apply IH].
    + apply IH; [|done]. rewrite str_all_app, Hcur. cbn [str_all].
      by rewrite Hc.
Qed.

Lemma str_all_join p ws :
  p " "%char = true → Forall (fun w => str_all p w = true) ws →
  str_all p (join " " ws) = true.
Proof.
  intros Hsp. induction 1 as [|x l Hx Hl IH]; [done|].
  destruct l as [|y l]; [done|].
  rewrite join_cons_cons, !str_all_app, Hx, IH. cbn [str_all].
  by rewrite Hsp.
Qed.

Lemma split_aux_all p sep k cur s :
  str_all p cur = true → str_all p s = true →
  Forall (fun w => str_all p w = true) (split_aux sep k cur s).
Proof.
  revert k cur. induction s as [|c s IH]; intros k cur Hcur Hs;
    cbn [split_aux].
  - by repeat constructor.
  - cbn [str_all] in Hs. apply andb_true_iff in Hs as [Hc Hs].
    destruct k as [|k]; [|by apply IH].
    destruct (String.prefix sep (String c s)).
    + constructor; [done | by apply IH].
    + apply IH; [|done]. rewrite str_all_app, Hcur. cbn [str_all].
      by rewrite Hc.
Qed.

Lemma replace_aux_all p old k s :
  str_all p s = true → str_all p (replace_aux old "" k s) = true.
Proof.
  revert k. induction s as [|c s IH]; intros k Hs; [done|].
  cbn [str_all] in Hs. apply andb_true_iff in Hs as [Hc Hs].
  cbn [replace_aux]. destruct k as [|k]; [|by apply IH].
  destruct (String.prefix old (String c s)).
  - rewrite str_app_nil_l. by apply IH.
  - cbn [str_all]. by rewrite Hc, IH.
Qed.

(** Every character of the cleaned words is a character of the input. *)
Lemma cleaned_words_all p raw words :
  str_all p raw = true → cleaned_words raw = Ok words →
  Forall (fun w => str_all p w = true) words.
Proof.
  intros Hraw. unfold cleaned_words, split.
  cbn [str_is_empty newline bind]. fold newline.
  pose proof (split_aux_all p newline 0 "" raw eq_refl Hraw) as Hlines.
  destruct (split_aux newline 0 "" raw) as [|line lines]; [done|].
  rewrite index_0. cbn [bind].
  apply Forall_cons in Hlines as [Hline _].
  replace (str_is_empty ". ") with false by done. cbn [bind].
  pose proof (split_aux_all p ". " 0 "" line eq_refl Hline) as Hsent.
  destruct (split_aux ". " 0 "" line) as [|fs sentences]; [done|].
  rewrite index_0. cbn [bind].
  apply Forall_cons in Hsent as [Hfs _].
  assert (Hr : str_all p (replace fs "*" "") = true).
  { unfold replace. cbn [str_is_empty]. by apply replace_aux_all. }
  set (r := replace fs "*" "") in *.
  set (r' := if _ : bool then slice r 1 (-1) else r).
  assert (Hr' : str_all p r' = true).
  { unfold r'. destruct (_ || _); [by apply str_all_substring | done]. }
  destruct (strip_bad_endings_spec (take 7 (split_ws r'))) as (k & -> & _).
  intros [= <-]. do 2 apply Forall_take. by apply split_ws_aux_all.
Qed.

Lemma is_ascii_capitalize w : is_ascii w = true → is_ascii (capitalize w) = true.
Proof.
  unfold is_ascii. destruct w as [|c w]; [done|]. cbn [capitalize str_all].
  intros [Hc Hw]%andb_true_iff. apply andb_true_iff. split.
  - revert Hc. by destruct c as [[] [] [] [] [] [] [] []].
  - revert Hw. induction w as [|d w IH]; [done|]. cbn [lower str_all].
    intros [Hd Hw]%andb_true_iff. rewrite (IH Hw), andb_true_r.
    revert Hd. by destruct d as [[] [] [] [] [] [] [] []].
Qed.

(** The result of cleaning an ASCII text is an ASCII text. *)
Lemma clean_description_ascii raw out :
  is_ascii raw = true → clean_description raw = Ok out → is_ascii out = true.
Proof.
  intros Hraw Hout.
  destruct (clean_description_shape raw) as (words & Hwords & _ & _ & _ & Hsh).
  rewrite Hout in Hsh. injection Hsh as ->.
  destruct (length words <? 4); [done|].
  apply (cleaned_words_all _ _ _ Hraw) in Hwords.
  apply str_all_join; [done|].
  destruct Hwords as [|w ws Hw Hws]; [done|].
  constructor; [by apply is_ascii_capitalize | done].
Qed.

End CleanChars.

(** ** The description cleaner: claims C4, C6, C7 *)

(** The input of the specification's example, and an input with a quoted
    sentence, stars and a trailing stop word. *)
Example clean_description_wow : clean_description "Wow" = Ok FALLBACK.
Proof. vm_compute. reflexivity. Qed.

Example clean_description_quoted :
  clean_description "'sHOOT DEMONS *with* big guns and'. more"
  = Ok "Shoot DEMONS with big guns".
Proof. vm_compute. reflexivity. Qed.

(** C7.  [clean_description] is total: for every input string (the empty
    string, a lone quote and a string without whitespace included) it returns
    a string; none of its index, slice, split or pop operations raises. *)
Theorem clean_description_total (raw : string) :
  ∃ out, clean_description raw = Ok out.
Proof.
  destruct (clean_description_shape raw) as (words & _ & _ & _ & _ & Hout).
  eauto.
Qed.

(** C4.  For every input, [clean_description] returns the fallback phrase or
    a string of four to seven whitespace-delimited words (the words left by
    the cleaning, the first one capitalised); and whenever fewer than four
    words are left after the cleaning, the result is the fallback phrase. *)
Theorem clean_description_word_count (raw : string) :
  ∃ words out,
    cleaned_words raw = Ok words ∧
    clean_description raw = Ok out ∧
    (length words < 4 → out = FALLBACK) ∧
    (4 ≤ length words → word_count out = length words) ∧
    (out = FALLBACK ∨ 4 ≤ word_count out ≤ 7).
Proof.
  destruct (clean_description_shape raw)
    as (words & Hwords & Hlen & Htok & _ & Hout).
  exists words. eexists. split; [done|]. split; [exact Hout|].
  destruct (length words <? 4) eqn:H4.
  - apply Nat.ltb_lt in H4. split; [done|]. split; [lia|]. by left.
  - apply Nat.ltb_ge in H4.
    assert (Hwc : word_count (join " " (capitalize_first words)) = length words).
    { unfold word_count.
      rewrite split_ws_join by (by apply capitalize_first_tokens).
      apply length_capitalize_first. }
    split; [lia|]. split; [done|]. right. lia.
Qed.




(** ** The [/answer] route: claim C10 *)

Section AnswerFacts.

Variables (session : Session) (questions : list Question) (q : Question).
Hypothesis Hquestions : QUESTIONS session = Some questions.
Hypothesis Hq : index questions (get (CURRENT_QUESTION_IDX session) 0%Z) = Ok q.

(** [post] depends on [choice_idx] through [q['choices'][choice_idx]] only. *)
Lemma post_index_ext (i j : Z) :
  index (choices q) i = index (choices q) j → post session i = post session j.
Proof using Hquestions Hq.
  intros Hij. unfold post. rewrite Hquestions. cbn [getkey bind].
  rewrite Hq. cbn [bind]. by rewrite Hij.
Qed.

Lemma post_index_ok (i : Z) (chosen_answer : string) :
  index (choices q) i = Ok chosen_answer → ∃ r, post session i = Ok r.
Proof using Hquestions Hq.
  intros Hi. unfold post. rewrite Hquestions. cbn [getkey bind].
  rewrite Hq. cbn [bind]. rewrite Hi. cbn [bind].
  destruct (bool_decide (chosen_answer = correct_answer q));
    cbn [QUESTIONS]; rewrite ?Hquestions; cbn [getkey bind];
    destruct (_ <? _)%Z; eauto.
Qed.

Lemma post_index_raise (i : Z) (e : exn) :
  index (choices q) i = Raise e → post session i = Raise e.
Proof using Hquestions Hq.
  intros Hi. unfold post. rewrite Hquestions. cbn [getkey bind].
  rewrite Hq. cbn [bind]. by rewrite Hi.
Qed.

(** What [post] answers when [q['choices'][choice_idx]] is [c]: the index
    moves on by one, the questions stay, and the heading and the score follow
    the comparison of [c] with the correct answer. *)
Lemma post_index_result (i : Z) (c : string) :
  index (choices q) i = Ok c →
  ∃ session' fb,
    post session i = Ok (session', fb) ∧
    CURRENT_QUESTION_IDX session'
      = Some (get (CURRENT_QUESTION_IDX session) 0 + 1)%Z ∧
    QUESTIONS session' = QUESTIONS session ∧
    (c = correct_answer q →
       heading fb = "Correct!" ∧
       SCORE session' = Some (get (SCORE session) 0 + 1)%Z) ∧
    (c ≠ correct_answer q →
       heading fb = "Incorrect!" ∧ SCORE session' = SCORE session).
Proof using Hquestions Hq.
  intros Hi. unfold post. rewrite Hquestions. cbn [getkey bind].
  rewrite Hq. cbn [bind]. rewrite Hi. cbn [bind].
  case_bool_decide as Hc;
    cbn [QUESTIONS]; rewrite ?Hquestions; cbn [getkey bind];
    destruct (_ <? _)%Z;
    (eexists _, _; split; [reflexivity|];
     cbn [CURRENT_QUESTION_IDX QUESTIONS SCORE heading];
     rewrite ?Hquestions; by split_and!).
Qed.

End AnswerFacts.

Lemma index_four {A} (a b c d : A) (i : Z) :
  ((-4 ≤ i < 0)%Z → index [a; b; c; d] i = index [a; b; c; d] (4 + i)) ∧
  ((-4 ≤ i < 4)%Z → ∃ x, index [a; b; c; d] i = Ok x) ∧
  ((4 ≤ i ∨ i < -4)%Z → index [a; b; c; d] i = Raise IndexError).
Proof.
  split; [|split].
  - intros Hi.
    assert (i = -4 ∨ i = -3 ∨ i = -2 ∨ i = -1)%Z as [->|[->|[->| ->]]] by lia;
      reflexivity.
  - intros Hi.
    assert (i = -4 ∨ i = -3 ∨ i = -2 ∨ i = -1 ∨ i = 0 ∨ i = 1 ∨ i = 2 ∨ i = 3)%Z
      as [->|[->|[->|[->|[->|[->|[->| ->]]]]]]] by lia; cbn; eauto.
  - intros Hi. unfold index. cbn [length].
    destruct (i <? 0)%Z eqn:Hneg.
    + apply Z.ltb_lt in Hneg.
      replace (0 <=? Z.of_nat 4 + i)%Z with false; [done|].
      symmetry. apply Z.leb_gt. lia.
    + apply Z.ltb_ge in Hneg.
      replace (i <? Z.of_nat 4)%Z with false; [by rewrite andb_false_r|].
      symmetry. apply Z.ltb_ge. lia.
Qed.

(** C10.  In a session whose current question has four choices, an answer
    with [choice_idx] among -1, -2, -3, -4 does not raise: the handler answers
    as it does for [4 + choice_idx], that is, it compares
    [choices[4 + choice_idx]] with the correct answer, says "Correct!" and
    adds one to the score when they are equal, says "Incorrect!" and leaves
    the score when they are not, and moves on to the next question.  It
    raises (an [IndexError]) exactly for [choice_idx >= 4] and
    [choice_idx < -4]. *)
Theorem post_negative_choice_idx (session : Session)
    (questions : list Question) (q : Question) (choice_idx : Z) :
  QUESTIONS session = Some questions →
  index questions (get (CURRENT_QUESTION_IDX session) 0%Z) = Ok q →
  length (choices q) = 4 →
  ((-4 ≤ choice_idx < 0)%Z →
     post session choice_idx = post session (4 + choice_idx) ∧
     (∃ r, post session choice_idx = Ok r) ∧
     ∃ c session' fb,
       choices q !! Z.to_nat (4 + choice_idx) = Some c ∧
       post session choice_idx = Ok (session', fb) ∧
       CURRENT_QUESTION_IDX session'
         = Some (get (CURRENT_QUESTION_IDX session) 0 + 1)%Z ∧
       QUESTIONS session' = QUESTIONS session ∧
       (c = correct_answer q →
          heading fb = "Correct!" ∧
          SCORE session' = Some (get (SCORE session) 0 + 1)%Z) ∧
       (c ≠ correct_answer q →
          heading fb = "Incorrect!" ∧ SCORE session' = SCORE session)) ∧
  (post session choice_idx = Raise IndexError ↔
     (4 ≤ choice_idx ∨ choice_idx < -4)%Z) ∧
  ((∃ e, post session choice_idx = Raise e) ↔
     (4 ≤ choice_idx ∨ choice_idx < -4)%Z).
Proof.
  intros Hqs Hq Hlen.
  destruct (choices q) as [|a [|b [|c [|d [|]]]]] eqn:Hch; try discriminate.
  destruct (index_four a b c d choice_idx) as (Hneg & Hok & Hraise).
  rewrite <- Hch in Hneg, Hok, Hraise.
  assert (Hin : (-4 ≤ choice_idx < 4)%Z → ∃ r, post session choice_idx = Ok r).
  { intros Hi. destruct (Hok Hi) as [x Hx].
    by apply (post_index_ok session questions q Hqs Hq choice_idx x). }
  assert (Hout : (4 ≤ choice_idx ∨ choice_idx < -4)%Z →
                 post session choice_idx = Raise IndexError).
  { intros Hi.
    by apply (post_index_raise session questions q Hqs Hq), Hraise. }
  split; [|split].
  - intros Hi. split; [|split; [apply Hin; lia|]].
    { by apply (post_index_ext session questions q Hqs Hq), Hneg. }
    assert (Hpos : ∃ x, choices q !! Z.to_nat (4 + choice_idx) = Some x ∧
                        index (choices q) choice_idx = Ok x).
    { rewrite Hch.
      assert (choice_idx = -4 ∨ choice_idx = -3 ∨ choice_idx = -2
              ∨ choice_idx = -1)%Z as [->|[->|[->| ->]]] by lia;
        eexists; split; reflexivity. }
    destruct Hpos as (x & Hx & Hix). exists x.
    destruct (post_index_result session questions q Hqs Hq choice_idx x Hix)
      as (session' & fb & Hpost & Hidx & Hkeep & Hyes & Hno).
    exists session', fb. rewrite <- ?Hch.
    exact (conj Hx (conj Hpost (conj Hidx (conj Hkeep (conj Hyes Hno))))).
  - split; [|exact Hout].
    intros Hr. destruct (decide (-4 ≤ choice_idx < 4)%Z) as [Hi|Hi]; [|lia].
    destruct (Hin Hi) as [r Hr']. congruence.
  - split; [|eauto].
    intros [e Hr]. destruct (decide (-4 ≤ choice_idx < 4)%Z) as [Hi|Hi]; [|lia].
    destruct (Hin Hi) as [r Hr']. congruence.
Qed.

Lemma post_negative_choice_idx_witness :
  ((-4 ≤ -1 < 0)%Z →
     post Examples.session (-1) = post Examples.session (4 + -1) ∧
     (∃ r, post Examples.session (-1) = Ok r) ∧
     ∃ c session' fb,
       choices Examples.question !! Z.to_nat (4 + -1) = Some c ∧
       post Examples.session (-1) = Ok (session', fb) ∧
       CURRENT_QUESTION_IDX session'
         = Some (get (CURRENT_QUESTION_IDX Examples.session) 0 + 1)%Z ∧
       QUESTIONS session' = QUESTIONS Examples.session ∧
       (c = correct_answer Examples.question →
          heading fb = "Correct!" ∧
          SCORE session' = Some (get (SCORE Examples.session) 0 + 1)%Z) ∧
       (c ≠ correct_answer Examples.question →
          heading fb = "Incorrect!" ∧
          SCORE session' = SCORE Examples.session)) ∧
  (post Examples.session (-1) = Raise IndexError ↔ (4 ≤ -1 ∨ -1 < -4)%Z) ∧
  ((∃ e, post Examples.session (-1) = Raise e) ↔ (4 ≤ -1 ∨ -1 < -4)%Z).
Proof.
  apply (post_negative_choice_idx Examples.session [Examples.question]
           Examples.question (-1)); reflexivity.
Defined.

(** ** Facts about the [random] module *)

Section RandomFacts.

Lemma bindM_ok {A B} (m : M A) (k : A → M B) g b g' :
  bindM m k g = Ok (b, g') → ∃ a g1, m g = Ok (a, g1) ∧ k a g1 = Ok (b, g').
Proof.
  unfold bindM. destruct (m g) as [[a g1]|e]; [eauto | discriminate].
Qed.

Lemma bindM_step {A B} (m : M A) (k : A → M B) g a g1 :
  m g = Ok (a, g1) → bindM m k g = k a g1.
Proof. unfold bindM. by intros ->. Qed.

Lemma bindM_raise {A B} (m : M A) (k : A → M B) g e :
  m g = Raise e → bindM m k g = Raise e.
Proof. unfold bindM. by intros ->. Qed.

Lemma lift_ok {A} (r : result A) g a g' :
  lift r g = Ok (a, g') → r = Ok a ∧ g' = g.
Proof. unfold lift. destruct r as [a0|e]; [|discriminate]. by intros [= -> ->]. Qed.

Lemma randbelow_ok n g :
  0 < n → ∃ r, randbelow n g = Ok (r, fun k => g (S k)) ∧ r < n.
Proof.
  intros Hn. eexists. split; [reflexivity|].
  apply Nat.mod_upper_bound. lia.
Qed.

Lemma randint_empty a b g : (b < a)%Z → randint a b g = Raise ValueError.
Proof. intros H. unfold randint. apply Z.ltb_lt in H. by rewrite H. Qed.

Lemma randint_range a b g :
  (a ≤ b)%Z → ∃ z g', randint a b g = Ok (z, g') ∧ (a ≤ z ≤ b)%Z.
Proof.
  intros H. unfold randint.
  assert (H' : (b <? a)%Z = false) by (apply Z.ltb_ge; lia). rewrite H'.
  destruct (randbelow_ok (Z.to_nat (b - a + 1)) g) as (r & Hr & Hlt); [lia|].
  rewrite (bindM_step _ _ _ _ _ Hr). unfold ret.
  eexists _, _. split; [reflexivity|]. lia.
Qed.

Lemma randint_ok a b g z g' :
  randint a b g = Ok (z, g') → (a ≤ z ≤ b)%Z.
Proof.
  intros Hz. destruct (decide (a ≤ b)%Z) as [H|H].
  - destruct (randint_range a b g H) as (z' & g1 & Hz' & Hr). congruence.
  - rewrite randint_empty in Hz by lia. discriminate.
Qed.

Lemma index_nat {A} (l : list A) (i : nat) (x : A) :
  l !! i = Some x → index l (Z.of_nat i) = Ok x.
Proof.
  intros Hi. pose proof (lookup_lt_Some _ _ _ Hi) as Hlt.
  unfold index.
  replace (Z.of_nat i <? 0)%Z with false by (symmetry; apply Z.ltb_ge; lia).
  replace ((0 <=? Z.of_nat i)%Z && (Z.of_nat i <? Z.of_nat (length l))%Z)
    with true.
  - by rewrite Nat2Z.id, Hi.
  - symmetry. apply andb_true_iff.
    split; [apply Z.leb_le | apply Z.ltb_lt]; lia.
Qed.

Lemma index_ok {A} (l : list A) (i : Z) (x : A) :
  index l i = Ok x → ∃ j, l !! j = Some x.
Proof.
  unfold index. destruct (_ && _); [|discriminate].
  destruct (l !! _) eqn:E; [|discriminate]. intros [= ->]. eauto.
Qed.

Lemma choice_empty {A} g : choice (@nil A) g = Raise IndexError.
Proof. reflexivity. Qed.

Lemma choice_nonempty {A} (l : list A) g :
  l ≠ [] → ∃ x g', choice l g = Ok (x, g') ∧ x ∈ l.
Proof.
  intros Hl. unfold choice.
  rewrite bool_decide_eq_false_2 by (destruct l; [done | simpl; lia]).
  destruct (randbelow_ok (length l) g) as (r & Hr & Hlt).
  { destruct l; [done | simpl; lia]. }
  rewrite (bindM_step _ _ _ _ _ Hr).
  destruct (lookup_lt_is_Some_2 l r Hlt) as [x Hx].
  rewrite (index_nat _ _ _ Hx). cbn [lift].
  eexists _, _. split; [reflexivity|]. by eapply list_elem_of_lookup_2.
Qed.

Lemma choice_ok {A} (l : list A) g x g' : choice l g = Ok (x, g') → x ∈ l.
Proof.
  intros Hc. destruct l as [|y l]; [discriminate|].
  destruct (choice_nonempty (y :: l) g) as (x' & g1 & Hx' & Hin); [done|].
  congruence.
Qed.

Lemma pop_ok {A} (l : list A) (i : Z) x l' :
  pop l i = Ok (x, l') → ∃ j, l !! j = Some x ∧ l' = delete j l.
Proof.
  unfold pop, pop_at. destruct (_ && _); [|discriminate].
  destruct (l !! _) eqn:E; [|discriminate]. intros [= -> <-]. eauto.
Qed.

Lemma pop_in_range {A} (l : list A) (i : Z) :
  (0 ≤ i < len l)%Z →
  ∃ x, l !! Z.to_nat i = Some x ∧ pop l i = Ok (x, delete (Z.to_nat i) l).
Proof.
  unfold len. intros Hi. unfold pop, pop_at.
  replace (i <? 0)%Z with false by (symmetry; apply Z.ltb_ge; lia).
  replace ((0 <=? i)%Z && (i <? Z.of_nat (length l))%Z) with true.
  - destruct (lookup_lt_is_Some_2 l (Z.to_nat i)) as [x Hx]; [lia|].
    rewrite Hx. eauto.
  - symmetry. apply andb_true_iff.
    split; [apply Z.leb_le | apply Z.ltb_lt]; lia.
Qed.

(** [shuffle] permutes. *)
Lemma swap_perm {A} (x : list A) (i j : nat) : swap x i j ≡ₚ x.
Proof.
  unfold swap.
  destruct (x !! i) as [a|] eqn:Hi; [|done].
  destruct (x !! j) as [b|] eqn:Hj; [|done].
  by apply Permutation_insert_swap.
Qed.

Lemma shuffle_from_perm {A} (i : nat) (x : list A) g x' g' :
  shuffle_from i x g = Ok (x', g') → x' ≡ₚ x.
Proof.
  revert x g. induction i as [|i IH]; intros x g.
  - intros [= -> _]. done.
  - cbn [shuffle_from]. intros (j & g1 & _ & Hrest)%bindM_ok.
    apply IH in Hrest. by rewrite Hrest, swap_perm.
Qed.

Lemma shuffle_perm {A} (x : list A) g x' g' :
  shuffle x g = Ok (x', g') → x' ≡ₚ x.
Proof. apply shuffle_from_perm. Qed.

Lemma shuffle_from_total {A} (i : nat) (x : list A) g :
  ∃ x' g', shuffle_from i x g = Ok (x', g').
Proof.
  revert x g. induction i as [|i IH]; intros x g; [by eexists _, _|].
  cbn [shuffle_from].
  destruct (randbelow_ok (S (S i)) g) as (r & Hr & _); [lia|].
  rewrite (bindM_step _ _ _ _ _ Hr). apply IH.
Qed.

End RandomFacts.

(** ** Facts about [create_questions] *)

Section QuestionFacts.

Variable descriptions : gmap string (list string).

(** What a round that succeeds has done. *)
Lemma next_question_ok available_games g q available_games' g' :
  next_question descriptions available_games g = Ok ((q, available_games'), g') →
  ∃ j random_game same first second i1 i2,
    available_games !! j = Some random_game ∧
    available_games' = delete j available_games ∧
    correct_answer q = game random_game ∧
    same ∈ available_games' ∧
    (filter (fun x => genre x = genre random_game) available_games' ≠ [] →
     genre same = genre random_game) ∧
    filter (fun x => genre x ≠ genre random_game) available_games' !! i1
      = Some first ∧
    delete i1 (filter (fun x => genre x ≠ genre random_game) available_games')
      !! i2 = Some second ∧
    choices q ≡ₚ [game random_game; game same; game first; game second] ∧
    ∃ candidates, descriptions !! game random_game = Some candidates ∧
                  description q ∈ candidates.
Proof.
  unfold next_question.
  intros (idx & g1 & _ & H)%bindM_ok.
  apply bindM_ok in H as ([random_game pool] & g2 & Hpop & H).
  apply lift_ok in Hpop as [Hpop ->].
  apply pop_ok in Hpop as (j & Hj & ->).
  apply bindM_ok in H as (same_title & g3 & Hsame & H).
  apply bindM_ok in H as (idx1 & g4 & _ & H).
  apply bindM_ok in H as ([first diff1] & g5 & Hpop1 & H).
  apply lift_ok in Hpop1 as [Hpop1 ->].
  apply pop_ok in Hpop1 as (i1 & Hi1 & ->).
  apply bindM_ok in H as (idx2 & g6 & _ & H).
  apply bindM_ok in H as ([second diff2] & g7 & Hpop2 & H).
  apply lift_ok in Hpop2 as [Hpop2 ->].
  apply pop_ok in Hpop2 as (i2 & Hi2 & ->).
  apply bindM_ok in H as (candidates & g8 & Hget & H).
  apply lift_ok in Hget as [Hget ->].
  apply bindM_ok in H as (desc & g9 & Hdesc & H).
  apply choice_ok in Hdesc.
  apply bindM_ok in H as (shuffled & g10 & Hshuffle & H).
  apply shuffle_perm in Hshuffle.
  injection H as <- <- <-.
  assert (Hs : ∃ same, same_title = game same ∧
                 same ∈ delete j available_games ∧
                 (filter (fun x => genre x = genre random_game)
                         (delete j available_games) ≠ [] →
                  genre same = genre random_game)).
  { case_bool_decide as Hne.
    - apply bindM_ok in Hsame as (same & g11 & Hc & [= <- _]).
      apply choice_ok, list_elem_of_filter in Hc as [Hgenre Hin]. eauto.
    - apply bindM_ok in Hsame as (same & g11 & Hc & [= <- _]).
      apply choice_ok, list_elem_of_filter in Hc as [Hgenre Hin].
      exists same. split_and!; [done..|]. intros Hne'. by destruct Hne. }
  destruct Hs as (same & -> & Hin & Hgenre).
  exists j, random_game, same, first, second, i1, i2.
  split_and!; try done.
  exists candidates. split; [|done].
  unfold getitem in Hget.
  destruct (descriptions !! game random_game); [|discriminate]. congruence.
Qed.

Lemma fmap_delete_notin {A B} (f : A → B) (l : list A) j x :
  NoDup (f <$> l) → l !! j = Some x → f x ∉ f <$> delete j l.
Proof.
  intros Hnd Hj.
  rewrite <- (take_drop_middle l j x Hj) in Hnd.
  rewrite delete_take_drop.
  rewrite fmap_app, fmap_cons in Hnd. rewrite fmap_app.
  apply NoDup_app in Hnd as (_ & Hdisj & Hnd).
  apply NoDup_cons in Hnd as [Hx _].
  intros [Hin|Hin]%elem_of_app; [|done].
  apply (Hdisj _ Hin). by left.
Qed.

Lemma fmap_delete_subseteq {A B} (f : A → B) (l : list A) j y :
  y ∈ f <$> delete j l → y ∈ f <$> l.
Proof.
  intros (x & -> & Hx)%list_elem_of_fmap. apply list_elem_of_fmap_2.
  eapply elem_of_sublist; [exact Hx | apply sublist_delete].
Qed.

Lemma NoDup_fmap_delete {A B} (f : A → B) (l : list A) j :
  NoDup (f <$> l) → NoDup (f <$> delete j l).
Proof.
  intros Hnd. eapply sublist_NoDup; [exact Hnd|].
  apply fmap_sublist, sublist_delete.
Qed.

Lemma NoDup_fmap_filter {A B} (f : A → B) (P : A → Prop)
    `{!∀ x, Decision (P x)} (l : list A) :
  NoDup (f <$> l) → NoDup (f <$> filter P l).
Proof.
  intros Hnd. eapply sublist_NoDup; [exact Hnd|].
  apply fmap_sublist, sublist_filter.
Qed.

Lemma NoDup_fmap_inj {A B} (f : A → B) (l : list A) x y :
  NoDup (f <$> l) → x ∈ l → y ∈ l → f x = f y → x = y.
Proof.
  intros Hnd (i & Hi)%list_elem_of_lookup (j & Hj)%list_elem_of_lookup Hxy.
  assert (i = j) as ->; [|congruence].
  eapply NoDup_lookup; [exact Hnd | |].
  - rewrite list_lookup_fmap, Hi. reflexivity.
  - rewrite list_lookup_fmap, Hj. simpl. by rewrite Hxy.
Qed.

(** The rounds: each one appends a question whose answer is the game it took
    out of the pool. *)
Lemma question_rounds_ok n available_games questions g questions' g' :
  question_rounds n descriptions available_games questions g
    = Ok (questions', g') →
  NoDup (game <$> available_games) →
  ∃ new, questions' = questions ++ new ∧ length new = n ∧
         NoDup (correct_answer <$> new) ∧
         ∀ t, t ∈ correct_answer <$> new → t ∈ game <$> available_games.
Proof.
  revert available_games questions g.
  induction n as [|n IH]; intros available_games questions g.
  - intros [= <- _] _. exists []. rewrite app_nil_r.
    split_and!; [done|done|constructor|]. intros t Ht. by apply elem_of_nil in Ht.
  - cbn [question_rounds].
    intros ([q pool] & g1 & Hq & Hrest)%bindM_ok Hnd.
    apply next_question_ok in Hq
      as (j & rg & _ & _ & _ & _ & _ & Hj & -> & Hans & _).
    apply IH in Hrest as (new & -> & Hlen & Hnew & Hsub);
      [|by apply NoDup_fmap_delete].
    exists (q :: new). rewrite <- app_assoc. split_and!; [done|simpl; lia| |].
    + rewrite fmap_cons. apply NoDup_cons. split; [|done].
      intros Hin%Hsub. rewrite Hans in Hin.
      by eapply fmap_delete_notin.
    + intros t. rewrite fmap_cons.
      intros [->|Ht%Hsub%fmap_delete_subseteq]%elem_of_cons; [|done].
      rewrite Hans. by eapply list_elem_of_fmap_2, list_elem_of_lookup_2.
Qed.

(** The choices of a round that succeeds, when the titles of the pool are
    unique: four choices, the correct answer once; and four distinct choices
    when a game of the same genre was left (the path without fallback). *)
Lemma next_question_choices available_games g q available_games' g' :
  NoDup (game <$> available_games) →
  next_question descriptions available_games g = Ok ((q, available_games'), g') →
  ∃ random_game,
    random_game ∈ available_games ∧
    correct_answer q = game random_game ∧
    length (choices q) = 4 ∧
    length (filter (fun c => c = correct_answer q) (choices q)) = 1 ∧
    (filter (fun x => genre x = genre random_game) available_games' ≠ [] →
     NoDup (choices q)).
Proof.
  intros Hnd Hq.
  apply next_question_ok in Hq
    as (j & rg & same & first & second & i1 & i2 & Hj & -> & Hans & Hsame
        & Hgenre & Hi1 & Hi2 & Hperm & _).
  set (pool := delete j available_games) in *.
  set (diff := filter (fun x => genre x ≠ genre rg) pool) in *.
  assert (Hpool : NoDup (game <$> pool)) by (by apply NoDup_fmap_delete).
  assert (Hfirst : first ∈ diff) by (by eapply list_elem_of_lookup_2).
  assert (Hsecond' : second ∈ delete i1 diff) by (by eapply list_elem_of_lookup_2).
  assert (Hsecond : second ∈ diff).
  { eapply elem_of_sublist; [exact Hsecond' | apply sublist_delete]. }
  apply list_elem_of_filter in Hfirst as Hfirst_pool.
  destruct Hfirst_pool as [Hfirst_genre Hfirst_pool].
  apply list_elem_of_filter in Hsecond as Hsecond_pool.
  destruct Hsecond_pool as [Hsecond_genre Hsecond_pool].
  assert (Hfresh : ∀ x, x ∈ pool → game x ≠ game rg).
  { intros x Hx Heq. apply (fmap_delete_notin game available_games j rg Hnd Hj).
    rewrite <- Heq. by apply list_elem_of_fmap_2. }
  exists rg. split; [by eapply list_elem_of_lookup_2|]. split; [done|].
  split; [by rewrite Hperm|]. split.
  - rewrite Hperm, Hans.
    rewrite filter_cons_True by done.
    rewrite !filter_cons_False by (by apply Hfresh). done.
  - intros Hsame_genre. specialize (Hgenre Hsame_genre). rewrite Hperm.
    assert (H12 : game first ≠ game second).
    { intros Heq.
      apply (fmap_delete_notin game diff i1 first); [|done|].
      - by apply NoDup_fmap_filter.
      - rewrite Heq. by apply list_elem_of_fmap_2. }
    assert (Hs1 : game same ≠ game first).
    { intros Heq. apply Hfirst_genre.
      by rewrite <- (NoDup_fmap_inj game pool same first Hpool Hsame
                      Hfirst_pool Heq). }
    assert (Hs2 : game same ≠ game second).
    { intros Heq. apply Hsecond_genre.
      by rewrite <- (NoDup_fmap_inj game pool same second Hpool Hsame
                      Hsecond_pool Heq). }
    repeat (apply NoDup_cons; split);
      rewrite ?elem_of_cons, ?elem_of_nil; [| | | |apply NoDup_nil_2].
    + intros [Heq|[Heq|[Heq|[]]]]; symmetry in Heq; revert Heq;
        by apply Hfresh.
    + intros [?|[?|[]]]; done.
    + intros [?|[]]; done.
    + intros [].
Qed.

Lemma question_rounds_choices n available_games questions g questions' g' :
  question_rounds n descriptions available_games questions g
    = Ok (questions', g') →
  NoDup (game <$> available_games) →
  ∃ new, questions' = questions ++ new ∧
    Forall (fun q =>
      length (choices q) = 4 ∧
      length (filter (fun c => c = correct_answer q) (choices q)) = 1) new.
Proof.
  revert available_games questions g.
  induction n as [|n IH]; intros available_games questions g.
  - intros [= <- _] _. exists []. by rewrite app_nil_r.
  - cbn [question_rounds].
    intros ([q pool] & g1 & Hq & Hrest)%bindM_ok Hnd.
    pose proof (next_question_choices _ _ _ _ _ Hnd Hq)
      as (rg & _ & _ & Hlen & Hcount & _).
    apply next_question_ok in Hq as (j & _ & _ & _ & _ & _ & _ & _ & -> & _).
    apply IH in Hrest as (new & -> & Hnew); [|by apply NoDup_fmap_delete].
    exists (q :: new). rewrite <- app_assoc. split; [done|].
    by constructor.
Qed.

End QuestionFacts.

(** ** The question generator: claims C1, C2, C5 *)

(** C5.  In every quiz session that [create_questions] produces from a
    catalog with unique titles, there are five questions and their
    [correct_answer] values are pairwise distinct. *)
Theorem create_questions_distinct_answers games descriptions g questions g' :
  NoDup (game <$> games) →
  create_questions games descriptions g = Ok (questions, g') →
  length questions = 5 ∧ NoDup (correct_answer <$> questions).
Proof.
  intros Hnd Hq. unfold create_questions in Hq.
  apply question_rounds_ok in Hq as (new & -> & Hlen & Hnew & _); done.
Qed.

(** What does hold of the choices in every session made from a catalog with
    unique titles: four of them, the correct answer exactly once. *)
Lemma create_questions_choices games descriptions g questions g' :
  NoDup (game <$> games) →
  create_questions games descriptions g = Ok (questions, g') →
  Forall (fun q =>
    length (choices q) = 4 ∧
    length (filter (fun c => c = correct_answer q) (choices q)) = 1) questions.
Proof.
  intros Hnd Hq. unfold create_questions in Hq.
  by apply question_rounds_choices in Hq as (new & -> & Hnew).
Qed.

(** C1: the code breaks the claim.  On a catalog of eight games with unique
    titles and eight genres, with every draw 0, [create_questions] returns
    five questions; the first one takes the fallback for the same-genre
    decoy, and its choices name "Tetris" twice. *)
Theorem create_questions_duplicate_choice :
  NoDup (game <$> Examples.catalog) ∧
  ∃ q questions g',
    create_questions Examples.catalog (Examples.table_for Examples.catalog)
      Examples.zeros = Ok (q :: questions, g') ∧
    correct_answer q = "Doom" ∧
    choices q = ["Tetris"; "Tetris"; "FIFA"; "Doom"] ∧
    ¬ NoDup (choices q).
Proof.
  split; [apply (bool_decide_unpack _); vm_compute; exact I|].
  destruct (create_questions Examples.catalog
              (Examples.table_for Examples.catalog) Examples.zeros)
    as [[questions g']|e] eqn:E; vm_compute in E; [|discriminate].
  injection E as <- <-.
  eexists _, _, _. split; [reflexivity|]. split; [reflexivity|].
  split; [reflexivity|]. cbn [choices].
  intros Hnd. apply NoDup_cons in Hnd as [Hnotin _]. apply Hnotin. by left.
Qed.

Section SmallPool.

Variable descriptions : gmap string (list string).

Lemma filter_both_nil {A} (P : A → Prop) `{!∀ x, Decision (P x)} (l : list A) :
  filter P l = [] → filter (fun x => ¬ P x) l = [] → l = [].
Proof.
  destruct l as [|x l]; [done|]. rewrite !filter_cons.
  destruct (decide (P x)) as [HP|HP].
  - discriminate.
  - intros _. rewrite decide_True by done. discriminate.
Qed.

(** A round in which fewer than two games of another genre are left: what
    it raises. *)
Lemma next_question_small_pool available_games g idx g1 random_game pool :
  randint 0 (len available_games - 1) g = Ok (idx, g1) →
  pop available_games idx = Ok (random_game, pool) →
  length (filter (fun x => genre x ≠ genre random_game) pool) < 2 →
  next_question descriptions available_games g =
    Raise (if bool_decide (pool = []) then IndexError else ValueError).
Proof.
  intros Hidx Hpop Hfew. unfold next_question.
  rewrite (bindM_step _ _ _ _ _ Hidx). rewrite Hpop.
  rewrite (bindM_step _ _ g1 (random_game, pool) g1) by reflexivity.
  set (same := filter (fun x => genre x = genre random_game) pool) in *.
  set (diff := filter (fun x => genre x ≠ genre random_game) pool) in *.
  assert (Hdraws : ∀ g2 (k : Z → Game → list Game → Z → M (Question * list Game)),
    bindM (randint 0 (len diff - 1))
      (fun idx1 => bindM (lift (pop diff idx1))
         (fun '(first_choice, rest) =>
            bindM (randint 0 (len rest - 1))
              (fun idx2 => k idx1 first_choice rest idx2))) g2
    = Raise ValueError).
  { intros g2 k. destruct diff as [|x [|y diff']] eqn:Hdiff.
    - apply bindM_raise, randint_empty. unfold len. simpl. lia.
    - destruct (randint_range 0 (len [x] - 1) g2) as (z & g3 & Hz & Hr);
        [unfold len; simpl; lia|].
      rewrite (bindM_step _ _ _ _ _ Hz).
      assert (z = 0%Z) as -> by (unfold len in Hr; simpl in Hr; lia).
      rewrite (bindM_step _ _ g3 (x, []) g3) by reflexivity.
      apply bindM_raise, randint_empty. unfold len. simpl. lia.
    - simpl in Hfew. lia. }
  case_bool_decide as Hsame.
  - destruct (choice_nonempty same g1 Hsame) as (s & g2 & Hs & Hin).
    rewrite (bindM_step _ _ g1 (game s) g2)
      by (by rewrite (bindM_step _ _ _ _ _ Hs)).
    rewrite bool_decide_eq_false_2.
    2:{ intros ->. by apply elem_of_nil in Hin. }
    apply Hdraws.
  - destruct diff as [|x diff'] eqn:Hdiff.
    + rewrite (filter_both_nil _ pool Hsame Hdiff).
      rewrite bool_decide_eq_true_2 by done. by apply bindM_raise.
    + assert (pool ≠ []) as Hne by (intros ->; discriminate).
      rewrite bool_decide_eq_false_2 by done.
      destruct (choice_nonempty (x :: diff') g1) as (s & g2 & Hs & Hin); [done|].
      rewrite (bindM_step _ _ g1 (game s) g2)
        by (by rewrite (bindM_step _ _ _ _ _ Hs)).
      apply Hdraws.
Qed.

End SmallPool.

(** C2, as stated, fails: with the catalog of two games and every draw 0, the
    first round takes out "Doom", one game of another genre is left, and
    [create_questions] raises [ValueError], not the distinguished error. *)
Lemma create_questions_no_distinguished_error :
  ¬ (∀ games descriptions g idx g1 random_game pool,
       randint 0 (len games - 1) g = Ok (idx, g1) →
       pop games idx = Ok (random_game, pool) →
       length (filter (fun x => genre x ≠ genre random_game) pool) < 2 →
       create_questions games descriptions g = Raise InsufficientCatalogError).
Proof.
  intros H.
  specialize (H Examples.small_catalog
                (Examples.table_for Examples.small_catalog) Examples.zeros
                0%Z (fun k => Examples.zeros (S k))
                {| game := "Doom"; genre := "FPS" |}
                [ {| game := "Tetris"; genre := "Puzzle" |} ]).
  assert (Hrun : create_questions Examples.small_catalog
                   (Examples.table_for Examples.small_catalog) Examples.zeros
                 = Raise ValueError) by (vm_compute; reflexivity).
  rewrite Hrun in H.
  assert (Hne : @Raise (list Question * rng) ValueError
                ≠ Raise InsufficientCatalogError) by discriminate.
  apply Hne, H; [reflexivity | reflexivity | vm_compute; lia].
Qed.

(** C2, amended.  When, in a round, fewer than two games of a genre other
    than the correct answer's are left in the pool, the loop of
    [create_questions] raises a built-in exception: [IndexError] when the pool
    is empty ([random.choice] on an empty list), [ValueError] otherwise
    ([random.randint] on an empty range).  It holds in any round, and so for
    [create_questions] itself when the round is the first. *)
Theorem create_questions_small_pool n descriptions available_games questions
    g idx g1 random_game pool :
  randint 0 (len available_games - 1) g = Ok (idx, g1) →
  pop available_games idx = Ok (random_game, pool) →
  length (filter (fun x => genre x ≠ genre random_game) pool) < 2 →
  let raised := if bool_decide (pool = []) then IndexError else ValueError in
  question_rounds (S n) descriptions available_games questions g
    = Raise raised ∧
  create_questions available_games descriptions g = Raise raised.
Proof.
  intros Hidx Hpop Hfew raised.
  pose proof (next_question_small_pool descriptions _ _ _ _ _ _
                Hidx Hpop Hfew) as Hround.
  split.
  - cbn [question_rounds]. by apply bindM_raise.
  - unfold create_questions. cbn [question_rounds]. by apply bindM_raise.
Qed.

Lemma create_questions_small_pool_witness :
  question_rounds 5 (Examples.table_for Examples.small_catalog)
    Examples.small_catalog [] Examples.zeros = Raise ValueError ∧
  create_questions Examples.small_catalog
    (Examples.table_for Examples.small_catalog) Examples.zeros
    = Raise ValueError.
Proof.
  apply (create_questions_small_pool 4
           (Examples.table_for Examples.small_catalog)
           Examples.small_catalog [] Examples.zeros
           0%Z (fun k => Examples.zeros (S k))
           {| game := "Doom"; genre := "FPS" |}
           [ {| game := "Tetris"; genre := "Puzzle" |} ]);
    [reflexivity | reflexivity | vm_compute; lia].
Defined.

Lemma create_questions_distinct_answers_witness :
  ∃ questions g',
    create_questions Examples.paired_catalog
      (Examples.table_for Examples.paired_catalog) Examples.zeros
      = Ok (questions, g') ∧
    length questions = 5 ∧ NoDup (correct_answer <$> questions).
Proof.
  destruct (create_questions Examples.paired_catalog
              (Examples.table_for Examples.paired_catalog) Examples.zeros)
    as [[questions g']|e] eqn:E; [|vm_compute in E; discriminate].
  exists questions, g'. split; [reflexivity|].
  apply (create_questions_distinct_answers Examples.paired_catalog
           (Examples.table_for Examples.paired_catalog) Examples.zeros
           questions g');
    [apply (bool_decide_unpack _); vm_compute; exact I | exact E].
Defined.

(** ** Facts about the batch driver *)

Section DriverFacts.

Lemma generate_game_description_eq title w :
  generate_game_description title w =
  (desc_of (responses w 0),
   {| responses := fun k => responses w (S k);
      trace := trace w ++ [Request title] |}).
Proof.
  unfold generate_game_description, hf_connect, desc_of.
  destruct (responses w 0) as [content|]; [|done].
  by destruct (clean_description content).
Qed.

(** One turn of the [while] loop. *)
Lemma collect_unfold title ds rc w :
  collect title ds rc w =
  if length ds <? 5 then
    let '(desc, w') := generate_game_description title w in
    if bool_decide (desc = FALLBACK) then
      if max_retries <=? rc + 1 then (ds, w')
      else collect title ds (rc + 1) (sleep 60 w')
    else collect title (ds ++ [desc]) 0 (sleep 5 w')
  else (ds, w).
Proof.
  funelim (collect title ds rc w);
    repeat match goal with
           | H : _ = _ |- _ => rewrite H
           end; try reflexivity.
Qed.

Lemma outcomes_S rs n :
  outcomes rs (S n) = desc_of (rs 0) :: outcomes (fun k => rs (S k)) n.
Proof. reflexivity. Qed.

Lemma kept_cons_fallback l : kept (FALLBACK :: l) = kept l.
Proof. unfold kept. by rewrite filter_cons_False by (intros H; by apply H). Qed.

Lemma kept_cons d l : d ≠ FALLBACK → kept (d :: l) = d :: kept l.
Proof. intros H. unfold kept. by rewrite filter_cons_True. Qed.

Lemma kept_not_fallback l : Forall (fun d => d ≠ FALLBACK) (kept l).
Proof. apply Forall_forall. by intros d [? _]%list_elem_of_filter. Qed.

Lemma retries_after_fallback rc l :
  retries_after rc (FALLBACK :: l) = retries_after (S rc) l.
Proof. reflexivity. Qed.

Lemma retries_after_other rc d l :
  d ≠ FALLBACK → retries_after rc (d :: l) = retries_after 0 l.
Proof.
  intros H. unfold retries_after. cbn [fold_left].
  by rewrite bool_decide_eq_false_2.
Qed.

Lemma requested_request t l : requested (Request t :: l) = t :: requested l.
Proof. reflexivity. Qed.

Lemma requested_sleep n l : requested (Sleep n :: l) = requested l.
Proof. reflexivity. Qed.

Lemma requested_save d l : requested (Save d :: l) = requested l.
Proof. reflexivity. Qed.

Lemma requested_app l1 l2 : requested (l1 ++ l2) = requested l1 ++ requested l2.
Proof. apply omap_app. Qed.

(** What the [while] loop does from any state with fewer than three retries:
    it reads [n] responses, keeps the results that are not the fallback, and
    stops at the first moment at which five are kept or three consecutive
    fallbacks were seen. *)
Lemma collect_spec title ds rc w :
  rc < 3 →
  ∃ n evs,
    collect title ds rc w =
      (ds ++ kept (outcomes (responses w) n),
       {| responses := fun k => responses w (n + k);
          trace := trace w ++ evs |}) ∧
    requested evs = replicate n title ∧
    Forall (fun e => is_save e = false) evs ∧
    (length ds < 5 →
       0 < n ∧
       (length (ds ++ kept (outcomes (responses w) n)) = 5 ∨
        retries_after rc (outcomes (responses w) n) = 3)) ∧
    (length ds ≤ 5 → length (ds ++ kept (outcomes (responses w) n)) ≤ 5) ∧
    (∀ m, m < n →
       length (ds ++ kept (outcomes (responses w) m)) < 5 ∧
       retries_after rc (outcomes (responses w) m) < 3).
Proof.
  remember (4 * (5 - length ds) + (3 - rc)) as fuel eqn:Hfuel.
  revert ds rc w Hfuel.
  induction fuel as [fuel IH] using lt_wf_ind. intros ds rc w Hfuel Hrc.
  rewrite collect_unfold.
  destruct (length ds <? 5) eqn:Hlen.
  2:{ apply Nat.ltb_ge in Hlen. exists 0, []. cbn [outcomes kept filter].
      rewrite !app_nil_r. split_and!.
      - by destruct w.
      - done.
      - constructor.
      - lia.
      - done.
      - lia. }
  apply Nat.ltb_lt in Hlen.
  rewrite generate_game_description_eq.
  set (w' := {| responses := fun k => responses w (S k);
                trace := trace w ++ [Request title] |}).
  case_bool_decide as Hdesc.
  - destruct (max_retries <=? rc + 1) eqn:Hmax.
    + apply Nat.leb_le in Hmax. unfold max_retries in Hmax.
      exists 1, [Request title].
      rewrite outcomes_S, Hdesc. cbn [outcomes].
      rewrite kept_cons_fallback. cbn [kept filter]. rewrite app_nil_r.
      split_and!; try done.
      * by repeat constructor.
      * intros _. split; [lia|]. right.
        rewrite retries_after_fallback. cbn. lia.
      * intros m Hm. assert (m = 0) as -> by lia. cbn [outcomes kept filter].
        rewrite app_nil_r. cbn. lia.
    + apply Nat.leb_gt in Hmax. unfold max_retries in Hmax.
      destruct (IH (4 * (5 - length ds) + (3 - (rc + 1)))) with
        (ds := ds) (rc := rc + 1) (w := sleep 60 w')
        as (n & evs & Hrun & Hreq & Hsave & Hstop & Hmaxlen & Hmin);
        [lia | done | lia |].
      exists (S n), (Request title :: Sleep 60 :: evs).
      rewrite Hrun. rewrite outcomes_S, Hdesc, kept_cons_fallback.
      cbn [sleep emit responses trace w'] in *.
      split_and!.
      * f_equal. f_equal. by rewrite <- !app_assoc.
      * by rewrite requested_request, requested_sleep, Hreq.
      * by repeat constructor.
      * intros _. split; [lia|]. rewrite retries_after_fallback.
        replace (S rc) with (rc + 1) by lia. by apply Hstop.
      * done.
      * intros [|m] Hm.
        { cbn [outcomes kept filter]. rewrite app_nil_r. cbn. lia. }
        rewrite outcomes_S, Hdesc, kept_cons_fallback, retries_after_fallback.
        replace (S rc) with (rc + 1) by lia. apply Hmin. lia.
  - destruct (IH (4 * (5 - length (ds ++ [desc_of (responses w 0)])) + (3 - 0)))
      with (ds := ds ++ [desc_of (responses w 0)]) (rc := 0) (w := sleep 5 w')
      as (n & evs & Hrun & Hreq & Hsave & Hstop & Hmaxlen & Hmin);
      [rewrite length_app; simpl; lia | done | lia |].
    exists (S n), (Request title :: Sleep 5 :: evs).
    rewrite Hrun. rewrite outcomes_S, kept_cons by done.
    cbn [sleep emit responses trace w'] in *.
    rewrite <- !app_assoc in *. cbn [app] in *.
    rewrite length_app in Hstop, Hmaxlen. cbn [length] in Hstop, Hmaxlen.
    split_and!.
    * done.
    * by rewrite requested_request, requested_sleep, Hreq.
    * by repeat constructor.
    * intros _. split; [lia|].
      rewrite retries_after_other by done.
      destruct (decide (length ds + 1 < 5)) as [Hlt|Hge].
      { by apply Hstop. }
      left. assert (Hle : length ds + 1 ≤ 5) by lia.
      specialize (Hmaxlen Hle).
      rewrite !length_app in *. cbn [length] in *. lia.
    * intros _. apply Hmaxlen. lia.
    * intros [|m] Hm.
      { cbn [outcomes kept filter]. rewrite app_nil_r. cbn. lia. }
      rewrite outcomes_S, kept_cons by done.
      rewrite retries_after_other by done.
      assert (Hm' : m < n) by lia. specialize (Hmin m Hm').
      rewrite <- app_assoc in Hmin. exact Hmin.
Qed.

(** A game whose title is stored already is passed over. *)
Lemma process_games_skip g games (table : gmap string (list string)) w :
  game g ∈ dom table →
  process_games (g :: games) table w = process_games games table w.
Proof. intros Hin. cbn [process_games]. by rewrite bool_decide_eq_true_2. Qed.

(** A game whose title is not stored: the loop runs, its result is stored
    and saved, and the driver goes on with the next game. *)
Lemma process_games_new g games (table : gmap string (list string)) w :
  game g ∉ dom table →
  ∃ n evs,
    let rs := responses w in
    let table' := <[game g := kept (outcomes rs n)]> table in
    process_games (g :: games) table w =
      process_games games table'
        {| responses := fun k => rs (n + k);
           trace := trace w ++ evs ++ [Save table'; Sleep 30] |} ∧
    requested evs = replicate n (game g) ∧
    Forall (fun e => is_save e = false) evs ∧
    0 < n ∧
    length (kept (outcomes rs n)) ≤ 5 ∧
    (length (kept (outcomes rs n)) = 5 ∨
     consecutive_fallbacks (outcomes rs n) = 3) ∧
    (∀ m, m < n →
       length (kept (outcomes rs m)) < 5 ∧
       consecutive_fallbacks (outcomes rs m) < 3).
Proof.
  intros Hnotin.
  destruct (collect_spec (game g) [] 0 w)
    as (n & evs & Hrun & Hreq & Hsave & Hstop & Hmaxlen & Hmin); [lia|].
  exists n, evs. cbn zeta. cbn [process_games].
  rewrite bool_decide_eq_false_2 by done. rewrite Hrun.
  cbn [app length] in *. unfold sleep, emit. cbn [responses trace].
  rewrite <- !app_assoc. cbn [app].
  split_and!; try done.
  - apply Hstop. lia.
  - apply Hmaxlen. lia.
  - apply Hstop. lia.
Qed.

Lemma process_games_requested games (table : gmap string (list string)) w t :
  t ∈ requested (trace (process_games games table w).2) ↔
  t ∈ requested (trace w) ∨ (t ∈ game <$> games ∧ t ∉ dom table).
Proof.
  revert table w. induction games as [|g games IH]; intros table w.
  - cbn. split; [by left|]. intros [?|[Hin _]]; [done|].
    by apply elem_of_nil in Hin.
  - destruct (decide (game g ∈ dom table)) as [Hin|Hnotin].
    + rewrite process_games_skip by done. rewrite IH, fmap_cons.
      split; (intros [?|[Ht Hd]]; [by left|right]).
      * split; [by right | done].
      * split; [|done]. apply elem_of_cons in Ht as [->|Ht]; done.
    + destruct (process_games_new g games table w Hnotin)
        as (n & evs & Hrun & Hreq & _ & Hn & _).
      cbn zeta in Hrun. rewrite Hrun, IH. cbn [trace].
      rewrite !requested_app, Hreq, fmap_cons, dom_insert.
      cbn [requested omap]. rewrite app_nil_r.
      rewrite elem_of_app, elem_of_replicate, elem_of_cons.
      rewrite not_elem_of_union, not_elem_of_singleton.
      split.
      * intros [[?|[-> _]]|[Ht [Hne Hd]]]; [by left|right..]; split; auto.
      * intros [?|[[->|Ht] Hd]].
        -- by left; left.
        -- left. right. split; [done | lia].
        -- destruct (decide (t = game g)) as [->|Hne].
           ++ left. right. split; [done | lia].
           ++ right. done.
Qed.

(** Entries that are stored are never overwritten. *)
Lemma process_games_keeps games (table : gmap string (list string)) w t ds :
  table !! t = Some ds → (process_games games table w).1 !! t = Some ds.
Proof.
  revert table w. induction games as [|g games IH]; intros table w Ht; [done|].
  destruct (decide (game g ∈ dom table)) as [Hin|Hnotin].
  - rewrite process_games_skip by done. by apply IH.
  - destruct (process_games_new g games table w Hnotin)
      as (n & evs & Hrun & _).
    cbn zeta in Hrun. rewrite Hrun. apply IH.
    rewrite lookup_insert_ne; [done|].
    intros <-. apply Hnotin, elem_of_dom. eauto.
Qed.

Lemma outcomes_ext rs rs' n :
  (∀ k, rs k = rs' k) → outcomes rs n = outcomes rs' n.
Proof.
  revert rs rs'. induction n as [|n IH]; intros rs rs' Hext; [done|].
  rewrite !outcomes_S, Hext. f_equal. apply IH. intros k. apply Hext.
Qed.

Lemma retries_after_snoc rc l d :
  retries_after rc (l ++ [d]) =
  if bool_decide (d = FALLBACK) then S (retries_after rc l) else 0.
Proof. unfold retries_after. by rewrite fold_left_app. Qed.

(** A count of [k] consecutive fallbacks: the list ends with [k] of them. *)
Lemma consecutive_fallbacks_suffix l k :
  consecutive_fallbacks l = k → ∃ l0, l = l0 ++ replicate k FALLBACK.
Proof.
  unfold consecutive_fallbacks. revert k.
  induction l as [|d l IH] using rev_ind; intros k.
  - intros <-. by exists [].
  - rewrite retries_after_snoc. case_bool_decide as Hd.
    + intros <-. destruct (IH _ eq_refl) as [l0 Hl0]. exists l0.
      rewrite Hl0 at 1. rewrite Hd, <- app_assoc. f_equal.
      by rewrite replicate_S_end.
    + intros <-. exists (l ++ [d]). by rewrite app_nil_r.
Qed.

(** Every table that the driver holds or saves has, for each title, the
    entry that was on disk or an entry without the fallback phrase. *)
Lemma process_games_stores (table0 : gmap string (list string)) games
    (table : gmap string (list string)) w :
  let good (tbl : gmap string (list string)) :=
    ∀ t ds, tbl !! t = Some ds →
            table0 !! t = Some ds ∨ Forall (fun d => d ≠ FALLBACK) ds in
  good table →
  (∀ tbl, Save tbl ∈ trace w → good tbl) →
  good (process_games games table w).1 ∧
  ∀ tbl, Save tbl ∈ trace (process_games games table w).2 → good tbl.
Proof.
  intros good. revert table w.
  induction games as [|g games IH]; intros table w Htable Hsaved; [done|].
  destruct (decide (game g ∈ dom table)) as [Hin|Hnotin].
  - rewrite process_games_skip by done. by apply IH.
  - destruct (process_games_new g games table w Hnotin)
      as (n & evs & Hrun & _ & Hnosave & _).
    cbn zeta in Hrun. rewrite Hrun.
    assert (Hgood' : good (<[game g := kept (outcomes (responses w) n)]> table)).
    { intros t ds. destruct (decide (game g = t)) as [<-|Hne].
      - rewrite lookup_insert_eq. intros [= <-]. right. apply kept_not_fallback.
      - rewrite lookup_insert_ne by done. apply Htable. }
    apply IH; [done|]. cbn [trace]. intros tbl.
    rewrite !elem_of_app. intros [Hw|[Hevs|Hnew]].
    + by apply Hsaved.
    + rewrite Forall_forall in Hnosave. by apply Hnosave in Hevs.
    + apply elem_of_cons in Hnew as [[= ->]|Hnew]; [done|].
      apply elem_of_cons in Hnew as [?|Hnew]; [done|].
      by apply elem_of_nil in Hnew.
Qed.

(** Every game of the catalog whose title is not stored gets an entry: the
    results kept from the [n] responses read from position [p] on, where
    the reading stops at the first moment at which five results are kept or
    three consecutive fallbacks were seen. *)
Lemma process_games_gives_up games (table : gmap string (list string)) w g :
  g ∈ games → game g ∉ dom table →
  ∃ p n,
    let rs := fun k => responses w (p + k) in
    (process_games games table w).1 !! game g = Some (kept (outcomes rs n)) ∧
    0 < n ∧
    length (kept (outcomes rs n)) ≤ 5 ∧
    (length (kept (outcomes rs n)) = 5 ∨
     consecutive_fallbacks (outcomes rs n) = 3) ∧
    (∀ m, m < n →
       length (kept (outcomes rs m)) < 5 ∧
       consecutive_fallbacks (outcomes rs m) < 3).
Proof.
  revert table w. induction games as [|g0 games IH]; intros table w Hg Hnotin.
  { by apply elem_of_nil in Hg. }
  destruct (decide (game g0 ∈ dom table)) as [Hin0|Hnotin0].
  - rewrite process_games_skip by done. apply IH; [|done].
    apply elem_of_cons in Hg as [->|Hg]; done.
  - destruct (process_games_new g0 games table w Hnotin0)
      as (n0 & evs & Hrun & _ & _ & Hn0 & Hlen0 & Hstop0 & Hmin0).
    cbn zeta in Hrun, Hlen0, Hstop0, Hmin0. rewrite Hrun.
    destruct (decide (game g = game g0)) as [Heq|Hne].
    + exists 0, n0. cbn zeta. cbn [Nat.add]. rewrite Heq.
      split_and!; try done.
      apply process_games_keeps. by rewrite lookup_insert_eq.
    + assert (Hg' : g ∈ games).
      { apply elem_of_cons in Hg as [->|Hg]; done. }
      set (table' := <[game g0 := kept (outcomes (responses w) n0)]> table).
      assert (Hnotin' : game g ∉ dom table').
      { unfold table'. rewrite dom_insert, not_elem_of_union,
          not_elem_of_singleton. done. }
      destruct (IH table'
                  {| responses := fun k => responses w (n0 + k);
                     trace := trace w ++ evs ++ [Save table'; Sleep 30] |}
                  Hg' Hnotin')
        as (p & n & Hfinal & Hn & Hlen & Hstop & Hmin).
      cbn zeta in Hfinal, Hlen, Hstop, Hmin. cbn [responses] in *.
      assert (Hext : ∀ m,
        outcomes (fun k => responses w (n0 + (p + k))) m =
        outcomes (fun k => responses w (n0 + p + k)) m).
      { intros m. apply outcomes_ext. intros k. f_equal. lia. }
      exists (n0 + p), n. cbn zeta.
      rewrite <- !Hext. split_and!; try done.
      intros m Hm. rewrite <- Hext. by apply Hmin.
Qed.

End DriverFacts.

(** ** The batch driver: claims C3, C8, C9 *)

(** C3, as stated, fails: when "Doom" is stored with one description, it
    lacks five, and the driver sends no request for it. *)
Lemma driver_skips_incomplete_entry :
  ¬ (∀ games (d : gmap string (list string)) service g,
       g ∈ games → stored_count d (game g) < 5 →
       game g ∈ requested
         (trace (generate_descriptions_for_all_games games (Some d)
                   (start service)).2)).
Proof.
  intros H.
  specialize (H [ {| game := "Doom"; genre := "FPS" |} ]
                {[ "Doom" := ["Angry metal shotguns demon confetti"] ]}
                Examples.flaky {| game := "Doom"; genre := "FPS" |}).
  assert (Hnone : requested
            (trace (generate_descriptions_for_all_games
                      [ {| game := "Doom"; genre := "FPS" |} ]
                      (Some {[ "Doom" := ["Angry metal shotguns demon confetti"] ]})
                      (start Examples.flaky)).2) = [])
    by (vm_compute; reflexivity).
  rewrite Hnone in H. eapply elem_of_nil, H.
  - by left.
  - vm_compute. lia.
Qed.

(** C3, amended.  After a restart, the batch driver sends requests exactly
    for the catalog games whose title is not a key of the stored table.  A
    title that is stored is never requested again, whether it holds five
    entries or fewer; a game whose title is not stored is processed. *)
Theorem driver_requests_unstored_titles (games : list Game)
    (file : option (gmap string (list string))) (service : nat → response)
    (t : string) :
  let table := default ∅ file in
  let final := generate_descriptions_for_all_games games file (start service) in
  (t ∈ requested (trace final.2) ↔ t ∈ game <$> games ∧ t ∉ dom table) ∧
  (stored_count table t = 5 → t ∉ requested (trace final.2)) ∧
  (t ∈ dom table → t ∉ requested (trace final.2)).
Proof.
  intros table final.
  assert (Hiff : t ∈ requested (trace final.2) ↔
                 t ∈ game <$> games ∧ t ∉ dom table).
  { unfold final, generate_descriptions_for_all_games.
    replace (match file with Some d => d | None => ∅ end) with table
      by (by destruct file).
    rewrite process_games_requested. cbn [start trace requested omap].
    split; [intros [Hin|?]; [by apply elem_of_nil in Hin | done] | by right]. }
  split; [done|]. split.
  - unfold stored_count. intros Hcount Hreq. apply Hiff in Hreq as [_ Hd].
    apply Hd, elem_of_dom. destruct (table !! t); [eauto | discriminate].
  - intros Hin Hreq. apply Hiff in Hreq as [_ Hd]. done.
Qed.

(** C8.  For each game of the catalog that is not stored yet, the driver
    reads responses from some position [p] of the service on and stores the
    results it keeps.  It stops reading at the first moment at which five
    results are kept or three consecutive results were the fallback (any
    other result resets the count); when it stops with fewer than five, the
    last three results were fallbacks, and the fewer-than-five results are
    what it stores.  The driver then goes on: every such game of the catalog
    has its entry in the final table. *)
Theorem driver_gives_up_after_three_fallbacks (games : list Game)
    (file : option (gmap string (list string))) (service : nat → response)
    (g : Game) :
  g ∈ games → game g ∉ dom (default ∅ file) →
  ∃ p n,
    let rs := fun k => service (p + k) in
    let stored := kept (outcomes rs n) in
    (generate_descriptions_for_all_games games file (start service)).1
      !! game g = Some stored ∧
    0 < n ∧
    length stored ≤ 5 ∧
    (length stored < 5 →
       ∃ l, outcomes rs n = l ++ [FALLBACK; FALLBACK; FALLBACK]) ∧
    (∀ m, m < n →
       length (kept (outcomes rs m)) < 5 ∧
       consecutive_fallbacks (outcomes rs m) < 3).
Proof.
  intros Hg Hnotin.
  unfold generate_descriptions_for_all_games.
  replace (match file with Some d => d | None => ∅ end) with (default ∅ file)
    by (by destruct file).
  destruct (process_games_gives_up games (default ∅ file) (start service) g
              Hg Hnotin) as (p & n & Hfinal & Hn & Hlen & Hstop & Hmin).
  cbn zeta in Hfinal, Hlen, Hstop, Hmin. cbn [start responses] in *.
  exists p, n. cbn zeta. split_and!; try done.
  intros Hfew. destruct Hstop as [H5|H3]; [lia|].
  by apply consecutive_fallbacks_suffix in H3.
Qed.

Lemma driver_gives_up_after_three_fallbacks_witness :
  ∃ p n,
    let rs := fun k => Examples.flaky (p + k) in
    let stored := kept (outcomes rs n) in
    (generate_descriptions_for_all_games (take 2 Examples.catalog) None
       (start Examples.flaky)).1 !! "Doom" = Some stored ∧
    0 < n ∧
    length stored ≤ 5 ∧
    (length stored < 5 →
       ∃ l, outcomes rs n = l ++ [FALLBACK; FALLBACK; FALLBACK]) ∧
    (∀ m, m < n →
       length (kept (outcomes rs m)) < 5 ∧
       consecutive_fallbacks (outcomes rs m) < 3).
Proof.
  apply (driver_gives_up_after_three_fallbacks (take 2 Examples.catalog) None
           Examples.flaky {| game := "Doom"; genre := "FPS" |}).
  - apply (bool_decide_unpack _). vm_compute. exact I.
  - apply (bool_decide_unpack _). vm_compute. exact I.
Defined.

(** C9.  Every entry of the table that the batch driver returns, and of every
    table that it saves, is the entry that was on disk or a list of
    descriptions that all differ from the fallback phrase: a cleaned response
    equal to the fallback is never stored. *)
Theorem driver_never_stores_fallback (games : list Game)
    (file : option (gmap string (list string))) (service : nat → response)
    (t : string) (ds : list string) :
  let final := generate_descriptions_for_all_games games file (start service) in
  final.1 !! t = Some ds ∨
    (∃ tbl, Save tbl ∈ trace final.2 ∧ tbl !! t = Some ds) →
  default ∅ file !! t = Some ds ∨ Forall (fun d => d ≠ FALLBACK) ds.
Proof.
  intros final Hstored.
  unfold final, generate_descriptions_for_all_games in Hstored.
  replace (match file with Some d => d | None => ∅ end) with (default ∅ file)
    in Hstored by (by destruct file).
  destruct (process_games_stores (default ∅ file) games (default ∅ file)
              (start service)) as [Hfinal Hsaved].
  - intros t' ds' Ht'. by left.
  - intros tbl Hin. by apply elem_of_nil in Hin.
  - destruct Hstored as [Ht|(tbl & Hin & Ht)].
    + by apply Hfinal.
    + by apply (Hsaved tbl Hin).
Qed.

Lemma driver_never_stores_fallback_witness :
  default (∅ : gmap string (list string)) None !! "Doom"
    = Some ["Guessing with explosive consequences"] ∨
  Forall (fun d => d ≠ FALLBACK) ["Guessing with explosive consequences"].
Proof.
  apply (driver_never_stores_fallback (take 2 Examples.catalog) None
           Examples.flaky "Doom" ["Guessing with explosive consequences"]).
  left. vm_compute. reflexivity.
Defined.

(** ** More about [clean_description] *)

Section CleanerMore.

(** Where the cleaned words come from: the first sentence of the first line,
    without stars and without the wrapping quotes. *)
Lemma cleaned_words_origin raw :
  ∃ first_sentence k,
    let r := replace first_sentence "*" "" in
    let r' := if (startswith r dquote && endswith r dquote)
                 || (startswith r squote && endswith r squote)
              then slice r 1 (-1) else r in
    cleaned_words raw = Ok (take k (take 7 (split_ws r'))).
Proof.
  unfold cleaned_words.
  destruct (split_head_ok raw newline eq_refl) as (line & Hline).
  unfold bind in Hline |- *.
  destruct (split raw newline) as [lines|]; [|discriminate].
  rewrite Hline.
  destruct (split_head_ok line ". " eq_refl) as (fs & Hfs).
  unfold bind in Hfs.
  destruct (split line ". ") as [sentences|]; [|discriminate].
  rewrite Hfs. exists fs. cbn zeta.
  set (fs' := if _ : bool then slice _ 1 (-1) else replace fs "*" "").
  destruct (strip_bad_endings_spec (take 7 (split_ws fs'))) as (k & -> & _).
  by exists k.
Qed.

Lemma replace_star_all s : str_all not_star (replace s "*" "") = true.
Proof.
  unfold replace. cbn [str_is_empty].
  induction s as [|c s IH]; [done|].
  cbn [replace_aux]. cbn [String.prefix].
  destruct (ascii_dec "*" c) as [<-|Hne].
  - replace (String.prefix "" s) with true by (by destruct s).
    rewrite str_app_nil_l. exact IH.
  - cbn [str_all]. rewrite IH, andb_true_r. unfold not_star.
    apply negb_true_iff, Ascii.eqb_neq. congruence.
Qed.

Lemma not_star_capitalize w :
  str_all not_star w = true → str_all not_star (capitalize w) = true.
Proof.
  destruct w as [|c w]; [done|]. cbn [capitalize str_all].
  intros [Hc Hw]%andb_true_iff. apply andb_true_iff. split.
  - revert Hc. by destruct c as [[] [] [] [] [] [] [] []].
  - revert Hw. induction w as [|d w IH]; [done|]. cbn [lower str_all].
    intros [Hd Hw]%andb_true_iff. rewrite (IH Hw), andb_true_r.
    revert Hd. by destruct d as [[] [] [] [] [] [] [] []].
Qed.

Lemma cleaned_words_no_star raw words :
  cleaned_words raw = Ok words →
  Forall (fun w => str_all not_star w = true) words.
Proof.
  destruct (cleaned_words_origin raw) as (fs & k & Hwords). cbn zeta in Hwords.
  rewrite Hwords. intros [= <-]. do 2 apply Forall_take.
  apply split_ws_aux_all; [done|].
  destruct (_ || _); [apply str_all_substring|]; apply replace_star_all.
Qed.

End CleanerMore.

(** X1.  The result of [clean_description] is its own words joined by single
    spaces: no leading or trailing whitespace, no line break, no run of
    spaces. *)
Theorem clean_description_single_spaced (raw out : string) :
  clean_description raw = Ok out →
  join " " (split_ws out) = out ∧ strip out = out ∧
  contains newline out = false.
Proof.
  intros Hraw.
  destruct (clean_description_shape raw) as (words & _ & _ & Htok & _ & Hout).
  rewrite Hraw in Hout. injection Hout as ->.
  destruct (length words <? 4); [by vm_compute|].
  pose proof (capitalize_first_tokens words Htok) as Htok'.
  rewrite split_ws_join, strip_join, join_no_newline by done. done.
Qed.

Lemma clean_description_single_spaced_witness :
  join " " (split_ws "Two lines chasing one ball") = "Two lines chasing one ball" ∧
  strip "Two lines chasing one ball" = "Two lines chasing one ball" ∧
  contains newline "Two lines chasing one ball" = false.
Proof.
  apply (clean_description_single_spaced
           ("  two   lines" +:+ tab +:+ "chasing one ball  ")).
  vm_compute. reflexivity.
Defined.

(** X2.  The result of [clean_description] contains no star. *)
Theorem clean_description_no_star (raw out : string) :
  clean_description raw = Ok out → has_star out = false.
Proof.
  intros Hraw.
  destruct (clean_description_shape raw) as (words & Hwords & _ & _ & _ & Hout).
  rewrite Hraw in Hout. injection Hout as ->.
  destruct (length words <? 4); [by vm_compute|].
  apply (contains_char_absent "*").
  apply cleaned_words_no_star in Hwords.
  assert (Hcap : Forall (fun w => str_all not_star w = true)
                   (capitalize_first words)).
  { destruct Hwords as [|w ws Hw Hws]; [done|].
    constructor; [by apply not_star_capitalize | done]. }
  pose proof (str_all_join not_star _ eq_refl Hcap) as Hjoin.
  revert Hjoin. apply str_all_impl. intros c. unfold not_star.
  by rewrite Ascii.eqb_sym.
Qed.

Lemma clean_description_no_star_witness :
  has_star "Space monks argue with bullets" = false.
Proof.
  apply (clean_description_no_star "**Space monks** argue with *bullets*").
  vm_compute. reflexivity.
Defined.

(** X3.  When the result of [clean_description] has more than four words, its
    last word is not a stop word. *)
Theorem clean_description_no_stop_word (raw out : string) :
  clean_description raw = Ok out →
  4 < word_count out → ends_with_stop_word out = false.
Proof.
  intros Hraw.
  destruct (clean_description_shape raw) as (words & _ & _ & Htok & Hbad & Hout).
  rewrite Hraw in Hout. injection Hout as ->.
  destruct (length words <? 4); [vm_compute; lia|].
  unfold word_count, ends_with_stop_word.
  rewrite split_ws_join by (by apply capitalize_first_tokens).
  rewrite length_capitalize_first. intros Hlen.
  rewrite has_bad_ending_last in Hbad. injection Hbad as Hbad.
  apply Nat.ltb_lt in Hlen as Hlen'. rewrite Hlen' in Hbad. cbn [andb] in Hbad.
  destruct words as [|w [|w' ws]]; [done|simpl in Hlen; lia|].
  cbn [capitalize_first]. by rewrite last_cons_cons in *.
Qed.

Lemma clean_description_no_stop_word_witness :
  ends_with_stop_word "Friendships tested by screaming zombies" = false.
Proof.
  apply (clean_description_no_stop_word
           "friendships tested by screaming zombies and the");
    vm_compute; [reflexivity | lia].
Defined.

(** X4.  The first word of the result of [clean_description] on an ASCII
    text is capitalised: its first letter is not a lower-case letter and its
    other letters are not upper-case letters, so that [capitalize] leaves it
    as it is. *)
Theorem clean_description_capitalised (raw out : string) :
  is_ascii raw = true →
  clean_description raw = Ok out →
  is_ascii out = true ∧
  ∃ w ws, split_ws out = w :: ws ∧ capitalize w = w.
Proof.
  intros Hascii Hraw. split; [by apply (clean_description_ascii raw)|].
  destruct (clean_description_shape raw) as (words & _ & _ & Htok & _ & Hout).
  rewrite Hraw in Hout. injection Hout as ->.
  destruct (length words <? 4) eqn:Hlen; [by eexists _, _; vm_compute|].
  rewrite split_ws_join by (by apply capitalize_first_tokens).
  destruct words as [|w ws]; [discriminate|].
  exists (capitalize w), ws. split; [done|]. apply capitalize_capitalize.
Qed.

Lemma clean_description_capitalised_witness :
  is_ascii "Angry metal shotguns demon confetti" = true ∧
  ∃ w ws, split_ws "Angry metal shotguns demon confetti" = w :: ws ∧
          capitalize w = w.
Proof.
  apply (clean_description_capitalised "aNGRY metal shotguns demon confetti");
    vm_compute; reflexivity.
Defined.

Section FirstSentence.

(** The first piece of a split starts with what was read so far. *)
Lemma split_aux_head sep cur s :
  ∃ t rest, split_aux sep 0 cur s = (cur +:+ t) :: rest.
Proof.
  revert cur. induction s as [|c s IH]; intros cur; cbn [split_aux].
  - exists "", []. by rewrite str_app_nil_r.
  - destruct (String.prefix sep (String c s)).
    + exists "", (split_aux sep (String.length sep - 1) "" s).
      by rewrite str_app_nil_r.
    + destruct (IH (cur +:+ String c "")) as (t & rest & ->).
      exists (String c t), rest. by rewrite str_app_assoc.
Qed.

Lemma prefix_newline_cons c s t :
  String.prefix newline (String c s) = String.prefix newline (String c t).
Proof.
  unfold newline. cbn [String.prefix].
  destruct (ascii_dec _ c); [|done]. by destruct s, t.
Qed.

(** A text without line break, followed by anything: the first line starts
    with the text. *)
Lemma split_newline_head cur a t :
  contains newline a = false →
  ∃ t1 rest, split_aux newline 0 cur (a +:+ t) = (cur +:+ a +:+ t1) :: rest.
Proof.
  revert cur. induction a as [|c a IH]; intros cur Ha.
  - rewrite str_app_nil_l. apply split_aux_head.
  - apply contains_cons in Ha as [Hp Ha].
    rewrite str_app_cons. cbn [split_aux].
    rewrite (prefix_newline_cons c (a +:+ t) a), Hp.
    destruct (IH (cur +:+ String c "") Ha) as (t1 & rest & ->).
    exists t1, rest. by rewrite !str_app_assoc.
Qed.

Lemma split_newline_exact cur a t :
  contains newline a = false →
  ∃ rest, split_aux newline 0 cur (a +:+ newline +:+ t) = (cur +:+ a) :: rest.
Proof.
  revert cur. induction a as [|c a IH]; intros cur Ha.
  - rewrite str_app_nil_l, str_app_nil_r. unfold newline at 2.
    rewrite str_app_cons. cbn [split_aux].
    replace (String.prefix newline _) with true; [eexists; reflexivity|].
    unfold newline. cbn [String.prefix]. rewrite str_app_nil_l.
    destruct (ascii_dec _ _); [by destruct t | done].
  - apply contains_cons in Ha as [Hp Ha].
    rewrite str_app_cons. cbn [split_aux].
    rewrite (prefix_newline_cons c (a +:+ newline +:+ t) a), Hp.
    destruct (IH (cur +:+ String c "") Ha) as (rest & ->).
    exists rest. by rewrite !str_app_assoc.
Qed.

Lemma prefix_dot_space c s u :
  String.prefix ". " (String c s) = false →
  String.prefix ". " (String c (s +:+ ". " +:+ u)) = false.
Proof.
  cbn [String.prefix]. destruct (ascii_dec "." c); [|done].
  destruct s as [|d s].
  - intros _. rewrite str_app_nil_l, str_app_cons. cbn [String.prefix].
    by destruct (ascii_dec " " ".").
  - rewrite str_app_cons. cbn [String.prefix].
    destruct (ascii_dec " " d); [|done]. by destruct s.
Qed.

(** A text without sentence boundary, followed by a boundary and anything:
    the first sentence is the text. *)
Lemma split_dot_space_exact cur s u :
  contains ". " s = false →
  ∃ rest, split_aux ". " 0 cur (s +:+ ". " +:+ u) = (cur +:+ s) :: rest.
Proof.
  revert cur. induction s as [|c s IH]; intros cur Hs.
  - rewrite str_app_nil_l, str_app_nil_r, str_app_cons. cbn [split_aux].
    replace (String.prefix ". " _) with true; [eexists; reflexivity|].
    cbn [String.prefix]. destruct (ascii_dec "." "."); [|done].
    rewrite str_app_cons. cbn [String.prefix].
    destruct (ascii_dec " " " "); [by destruct u | done].
  - apply contains_cons in Hs as [Hp Hs].
    rewrite str_app_cons. cbn [split_aux].
    rewrite (prefix_dot_space c s u Hp).
    destruct (IH (cur +:+ String c "") Hs) as (rest & ->).
    exists rest. by rewrite !str_app_assoc.
Qed.

Lemma contains_app_char c a b :
  contains (String c "") a = false → contains (String c "") b = false →
  contains (String c "") (a +:+ b) = false.
Proof.
  intros Ha Hb. induction a as [|d a IH]; [done|].
  apply contains_cons in Ha as [Hp Ha]. rewrite str_app_cons.
  cbn [contains]. rewrite (IH Ha), orb_false_r.
  cbn [String.prefix] in *. destruct (ascii_dec c d); [|done].
  by destruct a.
Qed.

End FirstSentence.

(** X5.  [clean_description] reads the first line only: what follows the
    first line break has no effect on the result. *)
Theorem clean_description_first_line (s t : string) :
  contains newline s = false →
  clean_description (s +:+ newline +:+ t) = clean_description s.
Proof.
  intros Hs. unfold clean_description, cleaned_words, split.
  cbn [str_is_empty newline bind]. fold newline.
  destruct (split_newline_exact "" s t Hs) as (rest & ->).
  rewrite (split_aux_absent newline "" s Hs).
  by rewrite !index_0.
Qed.

Lemma clean_description_first_line_witness :
  clean_description ("Two lines chasing one ball" +:+ newline
                     +:+ "Here is why: it is Pong.")
  = clean_description "Two lines chasing one ball".
Proof.
  apply (clean_description_first_line "Two lines chasing one ball").
  vm_compute. reflexivity.
Defined.

(** X6.  [clean_description] reads the first sentence only: on a first line
    [s] without sentence boundary, what follows a full stop and a space has no
    effect on the result. *)
Theorem clean_description_first_sentence (s t : string) :
  contains newline s = false → contains ". " s = false →
  clean_description (s +:+ ". " +:+ t) = clean_description s.
Proof.
  intros Hnl Hdot. unfold clean_description, cleaned_words, split.
  cbn [str_is_empty newline bind]. fold newline.
  assert (Hnl' : contains newline (s +:+ ". ") = false).
  { by apply (contains_app_char (ascii_of_nat 10)). }
  destruct (split_newline_head "" (s +:+ ". ") t Hnl') as (t1 & rest & Hsplit).
  rewrite str_app_assoc in Hsplit. rewrite Hsplit.
  rewrite (split_aux_absent newline "" s Hnl).
  rewrite !index_0, !str_app_nil_l. cbn [bind].
  replace (str_is_empty ". ") with false by done. cbn [bind].
  rewrite str_app_assoc.
  destruct (split_dot_space_exact "" s t1 Hdot) as (rest' & ->).
  rewrite (split_aux_absent ". " "" s Hdot).
  by rewrite !index_0.
Qed.

Lemma clean_description_first_sentence_witness :
  clean_description ("Two lines chasing one ball" +:+ ". "
                     +:+ "It is Pong. Really.")
  = clean_description "Two lines chasing one ball".
Proof.
  apply (clean_description_first_sentence "Two lines chasing one ball");
    vm_compute; reflexivity.
Defined.

(** ** More about the batch driver *)

Section DriverMore.

Lemma process_games_dom games (table : gmap string (list string)) w t :
  t ∈ dom (process_games games table w).1 ↔
  t ∈ dom table ∨ t ∈ game <$> games.
Proof.
  revert table w. induction games as [|g games IH]; intros table w.
  - cbn. split; [by left|]. intros [?|Hin]; [done|].
    by apply elem_of_nil in Hin.
  - rewrite fmap_cons, elem_of_cons.
    destruct (decide (game g ∈ dom table)) as [Hin|Hnotin].
    + rewrite process_games_skip by done. rewrite IH.
      split; [intros [?|?]; auto|]. intros [?|[->|?]]; auto.
    + destruct (process_games_new g games table w Hnotin) as (n & evs & Hrun & _).
      cbn zeta in Hrun. rewrite Hrun, IH, dom_insert, elem_of_union,
        elem_of_singleton.
      split; [intros [[->|?]|?]; auto|]. intros [?|[->|?]]; auto.
Qed.

(** When every title of the catalog is stored, the driver does nothing. *)
Lemma process_games_all_stored games (table : gmap string (list string)) w :
  (∀ g, g ∈ games → game g ∈ dom table) →
  process_games games table w = (table, w).
Proof.
  induction games as [|g games IH]; intros Hall; [done|].
  rewrite process_games_skip by (apply Hall; by left).
  apply IH. intros g' Hg'. apply Hall. by right.
Qed.

Lemma collect_requests_bound title ds rc w :
  rc < 3 →
  length (requested (trace (collect title ds rc w).2)) ≤
  length (requested (trace w)) + (3 * (5 - length ds) - rc).
Proof.
  remember (4 * (5 - length ds) + (3 - rc)) as fuel eqn:Hfuel.
  revert ds rc w Hfuel.
  induction fuel as [fuel IH] using lt_wf_ind. intros ds rc w Hfuel Hrc.
  rewrite collect_unfold.
  destruct (length ds <? 5) eqn:Hlen; [|cbn; lia].
  apply Nat.ltb_lt in Hlen.
  rewrite generate_game_description_eq.
  case_bool_decide as Hdesc.
  - destruct (max_retries <=? rc + 1) eqn:Hmax.
    + cbn [snd trace]. rewrite requested_app, length_app. cbn. lia.
    + apply Nat.leb_gt in Hmax. unfold max_retries in Hmax.
      match goal with |- context [collect title ds (rc + 1) ?wd] =>
        pose proof (IH (4 * (5 - length ds) + (3 - (rc + 1))) ltac:(lia)
                      ds (rc + 1) wd eq_refl ltac:(lia)) as Hb end.
      etrans; [exact Hb|].
      cbn [sleep emit trace]. rewrite !requested_app, !length_app. cbn. lia.
  - assert (Hlen' : length (ds ++ [desc_of (responses w 0)]) = length ds + 1)
      by (rewrite length_app; simpl; lia).
    match goal with |- context [collect title ?ds' 0 ?wd] =>
      pose proof (IH (4 * (5 - length ds') + (3 - 0)) ltac:(lia)
                    ds' 0 wd eq_refl ltac:(lia)) as Hb end.
    etrans; [exact Hb|]. rewrite Hlen'.
    cbn [sleep emit trace]. rewrite !requested_app, !length_app. cbn. lia.
Qed.

Lemma process_games_requests_bound games (table : gmap string (list string)) w :
  length (requested (trace (process_games games table w).2)) ≤
  length (requested (trace w)) + 15 * length games.
Proof.
  revert table w. induction games as [|g games IH]; intros table w.
  - cbn. lia.
  - cbn [process_games]. case_bool_decide.
    + etrans; [apply IH|]. cbn [length]. lia.
    + pose proof (collect_requests_bound (game g) [] 0 w) as Hb.
      destruct (collect (game g) [] 0 w) as [ds w'].
      etrans; [apply IH|]. cbn [sleep emit trace snd length] in *.
      rewrite !requested_app, !length_app. cbn. cbn in Hb. lia.
Qed.

Lemma saved_app l1 l2 : saved (l1 ++ l2) = saved l1 ++ saved l2.
Proof. apply omap_app. Qed.

Lemma saved_none evs : Forall (fun e => is_save e = false) evs → saved evs = [].
Proof.
  induction 1 as [|e evs He Hevs IH]; [done|].
  destruct e; try done. 
Qed.

Lemma process_games_last_save games (table : gmap string (list string)) w :
  (saved (trace (process_games games table w).2) = saved (trace w) ∧
   (process_games games table w).1 = table) ∨
  last (saved (trace (process_games games table w).2))
    = Some (process_games games table w).1.
Proof.
  revert table w. induction games as [|g games IH]; intros table w.
  - by left.
  - destruct (decide (game g ∈ dom table)) as [Hin|Hnotin].
    + rewrite process_games_skip by done. apply IH.
    + destruct (process_games_new g games table w Hnotin)
        as (n & evs & Hrun & _ & Hnosave & _).
      cbn zeta in Hrun. rewrite Hrun. right.
      match goal with |- context [process_games games ?tb ?wd] =>
        destruct (IH tb wd) as [[Hs Ht]|Hl] end; [|done].
      rewrite Hs, Ht. cbn [trace].
      rewrite !saved_app, (saved_none evs Hnosave). cbn.
      by rewrite last_snoc.
Qed.

Lemma retries_after_healthy rc l :
  Forall (fun d => d ≠ FALLBACK) l → l ≠ [] → retries_after rc l = 0.
Proof.
  intros Hl Hne. destruct l as [|d l _] using rev_ind; [done|].
  rewrite retries_after_snoc.
  rewrite Forall_app, Forall_singleton in Hl. destruct Hl as [_ Hd].
  by rewrite bool_decide_eq_false_2 by done.
Qed.

Lemma outcomes_Forall (P : string → Prop) rs n :
  (∀ k, P (desc_of (rs k))) → Forall P (outcomes rs n).
Proof.
  revert rs. induction n as [|n IH]; intros rs HP; [constructor|].
  rewrite outcomes_S. constructor; [apply HP|]. apply IH. intros k. apply HP.
Qed.

Lemma outcomes_length rs n : length (outcomes rs n) = n.
Proof.
  revert rs. induction n as [|n IH]; intros rs; [done|].
  rewrite outcomes_S. cbn [length]. by rewrite IH.
Qed.

Lemma kept_all_fallback l : Forall (fun d => d = FALLBACK) l → kept l = [].
Proof.
  induction 1 as [|d l -> Hl IH]; [done|]. by rewrite kept_cons_fallback.
Qed.

Lemma kept_sublist l : kept l `sublist_of` l.
Proof. apply sublist_filter. Qed.

Lemma desc_of_word_count r : 4 ≤ word_count (desc_of r) ≤ 7.
Proof.
  destruct r as [content|]; [|vm_compute; lia]. unfold desc_of.
  destruct (clean_description_shape content)
    as (words & _ & Hlen & Htok & _ & ->).
  destruct (length words <? 4) eqn:H4; [vm_compute; lia|].
  apply Nat.ltb_ge in H4. unfold word_count.
  rewrite split_ws_join by (by apply capitalize_first_tokens).
  rewrite length_capitalize_first. lia.
Qed.

End DriverMore.

(** X7.  The table that the batch driver returns has as keys the titles
    that were stored and the titles of the catalog, and no other. *)
Theorem driver_table_keys (games : list Game)
    (file : option (gmap string (list string))) (service : nat → response)
    (t : string) :
  t ∈ dom (generate_descriptions_for_all_games games file (start service)).1 ↔
  t ∈ dom (default ∅ file) ∨ t ∈ game <$> games.
Proof.
  unfold generate_descriptions_for_all_games.
  replace (match file with Some d => d | None => ∅ end) with (default ∅ file)
    by (by destruct file).
  apply process_games_dom.
Qed.

(** X8.  The batch driver never overwrites an entry that was on disk: it is
    returned as it was. *)
Theorem driver_keeps_stored_entries (games : list Game)
    (d : gmap string (list string)) (service : nat → response)
    (t : string) (ds : list string) :
  d !! t = Some ds →
  (generate_descriptions_for_all_games games (Some d) (start service)).1 !! t
    = Some ds.
Proof. apply process_games_keeps. Qed.

Lemma driver_keeps_stored_entries_witness :
  (generate_descriptions_for_all_games Examples.small_catalog
     (Some {[ "Doom" := ["Angry metal shotguns demon confetti"] ]})
     (start Examples.flaky)).1 !! "Doom"
  = Some ["Angry metal shotguns demon confetti"].
Proof.
  apply (driver_keeps_stored_entries Examples.small_catalog
           {[ "Doom" := ["Angry metal shotguns demon confetti"] ]}
           Examples.flaky "Doom").
  vm_compute. reflexivity.
Defined.

(** X9.  The batch driver sends at most 15 requests for a game (five kept
    results, each after at most two fallbacks): at most 15 times the length
    of the catalog in all. *)
Theorem driver_requests_bound (games : list Game)
    (file : option (gmap string (list string))) (service : nat → response) :
  length (requested
            (trace (generate_descriptions_for_all_games games file
                      (start service)).2))
  ≤ 15 * length games.
Proof.
  unfold generate_descriptions_for_all_games.
  etrans; [apply process_games_requests_bound|]. cbn. lia.
Qed.

(** X10.  The batch driver returns the table that it saved last; when it
    saved none, it returns the table that was on disk. *)
Theorem driver_returns_last_save (games : list Game)
    (file : option (gmap string (list string))) (service : nat → response) :
  let final := generate_descriptions_for_all_games games file (start service) in
  last (saved (trace final.2)) = Some final.1 ∨
  (saved (trace final.2) = [] ∧ final.1 = default ∅ file).
Proof.
  intros final. unfold final, generate_descriptions_for_all_games.
  replace (match file with Some d => d | None => ∅ end) with (default ∅ file)
    by (by destruct file).
  destruct (process_games_last_save games (default ∅ file) (start service))
    as [[Hs Ht]|Hl]; [right | by left].
  by rewrite Hs, Ht.
Qed.

(** X11.  Running the batch driver again on the table that it returned does
    nothing: no request, no sleep, no save, and the same table. *)
Theorem driver_rerun_does_nothing (games : list Game)
    (file : option (gmap string (list string))) (service : nat → response)
    (w : world) :
  let final := generate_descriptions_for_all_games games file (start service) in
  generate_descriptions_for_all_games games (Some final.1) w = (final.1, w).
Proof.
  intros final. unfold generate_descriptions_for_all_games at 1.
  apply process_games_all_stored. intros g Hg.
  apply driver_table_keys. right. by apply list_elem_of_fmap_2.
Qed.

(** X12.  When no response of the service leads to the fallback, every game
    of the catalog that was not stored gets five descriptions. *)
Theorem driver_healthy_service (games : list Game)
    (file : option (gmap string (list string))) (service : nat → response)
    (g : Game) :
  (∀ k, desc_of (service k) ≠ FALLBACK) →
  g ∈ games → game g ∉ dom (default ∅ file) →
  ∃ ds,
    (generate_descriptions_for_all_games games file (start service)).1
      !! game g = Some ds ∧
    length ds = 5.
Proof.
  intros Hhealthy Hg Hnotin.
  unfold generate_descriptions_for_all_games.
  replace (match file with Some d => d | None => ∅ end) with (default ∅ file)
    by (by destruct file).
  destruct (process_games_gives_up games (default ∅ file) (start service) g
              Hg Hnotin) as (p & n & Hfinal & Hn & _ & Hstop & _).
  cbn zeta in Hfinal, Hstop. cbn [start responses] in *.
  eexists. split; [exact Hfinal|].
  destruct Hstop as [H5|H3]; [done|]. exfalso.
  unfold consecutive_fallbacks in H3.
  rewrite retries_after_healthy in H3; [done| |].
  - apply (outcomes_Forall (fun d => d ≠ FALLBACK)). intros k. apply Hhealthy.
  - intros Hnil. apply (f_equal length) in Hnil.
    rewrite outcomes_length in Hnil. simpl in Hnil. lia.
Qed.

Lemma driver_healthy_service_witness :
  ∃ ds,
    (generate_descriptions_for_all_games Examples.small_catalog None
       (start Examples.healthy)).1 !! "Tetris" = Some ds ∧
    length ds = 5.
Proof.
  apply (driver_healthy_service Examples.small_catalog None Examples.healthy
           {| game := "Tetris"; genre := "Puzzle" |}).
  - intros k. vm_compute. discriminate.
  - apply (bool_decide_unpack _). vm_compute. exact I.
  - apply (bool_decide_unpack _). vm_compute. exact I.
Defined.

(** X13.  When every response of the service leads to the fallback, every
    game of the catalog that was not stored is stored with an empty list. *)
Theorem driver_service_down (games : list Game)
    (file : option (gmap string (list string))) (service : nat → response)
    (g : Game) :
  (∀ k, desc_of (service k) = FALLBACK) →
  g ∈ games → game g ∉ dom (default ∅ file) →
  (generate_descriptions_for_all_games games file (start service)).1
    !! game g = Some [].
Proof.
  intros Hdown Hg Hnotin.
  unfold generate_descriptions_for_all_games.
  replace (match file with Some d => d | None => ∅ end) with (default ∅ file)
    by (by destruct file).
  destruct (process_games_gives_up games (default ∅ file) (start service) g
              Hg Hnotin) as (p & n & Hfinal & _).
  cbn zeta in Hfinal. cbn [start responses] in *. rewrite Hfinal. f_equal.
  apply kept_all_fallback.
  apply (outcomes_Forall (fun d => d = FALLBACK)). intros k. apply Hdown.
Qed.

Lemma driver_service_down_witness :
  (generate_descriptions_for_all_games Examples.small_catalog None
     (start Examples.down)).1 !! "Tetris" = Some [].
Proof.
  apply (driver_service_down Examples.small_catalog None Examples.down
           {| game := "Tetris"; genre := "Puzzle" |}).
  - intros k. reflexivity.
  - apply (bool_decide_unpack _). vm_compute. exact I.
  - apply (bool_decide_unpack _). vm_compute. exact I.
Defined.

(** X14.  What the batch driver stores for a game of the catalog that was
    not stored: at most five descriptions, each of four to seven words and
    none the fallback phrase. *)
Theorem driver_stores_clean_descriptions (games : list Game)
    (file : option (gmap string (list string))) (service : nat → response)
    (g : Game) (ds : list string) :
  g ∈ games → game g ∉ dom (default ∅ file) →
  (generate_descriptions_for_all_games games file (start service)).1
    !! game g = Some ds →
  length ds ≤ 5 ∧
  Forall (fun d => 4 ≤ word_count d ≤ 7 ∧ d ≠ FALLBACK) ds.
Proof.
  intros Hg Hnotin.
  unfold generate_descriptions_for_all_games.
  replace (match file with Some d => d | None => ∅ end) with (default ∅ file)
    by (by destruct file).
  destruct (process_games_gives_up games (default ∅ file) (start service) g
              Hg Hnotin) as (p & n & Hfinal & _ & Hlen & _).
  cbn zeta in Hfinal, Hlen. cbn [start responses] in *.
  rewrite Hfinal. intros [= <-]. split; [done|].
  apply Forall_forall. intros d Hd.
  apply list_elem_of_filter in Hd as [Hne Hd]. split; [|done].
  pose proof (outcomes_Forall (fun d => 4 ≤ word_count d ≤ 7)
                (fun k => service (p + k)) n
                (fun k => desc_of_word_count _)) as Hall.
  rewrite Forall_forall in Hall. by apply Hall.
Qed.

Lemma driver_stores_clean_descriptions_witness :
  length ["Guessing with explosive consequences"] ≤ 5 ∧
  Forall (fun d => 4 ≤ word_count d ≤ 7 ∧ d ≠ FALLBACK)
         ["Guessing with explosive consequences"].
Proof.
  apply (driver_stores_clean_descriptions Examples.small_catalog None
           Examples.flaky {| game := "Doom"; genre := "FPS" |}).
  - apply (bool_decide_unpack _). vm_compute. exact I.
  - apply (bool_decide_unpack _). vm_compute. exact I.
  - vm_compute. reflexivity.
Defined.

(** ** Facts about [fix_mystery_descriptions] *)

Section FixFacts.

Lemma mystery_indices_from_spec i descs j :
  j ∈ mystery_indices_from i descs ↔
  ∃ k, j = i + k ∧ descs !! k = Some FALLBACK.
Proof.
  revert i. induction descs as [|d descs IH]; intros i; cbn [mystery_indices_from].
  - split; [by intros ?%elem_of_nil | by intros (k & _ & ?)].
  - case_bool_decide as Hd.
    + rewrite elem_of_cons, IH. split.
      * intros [->|(k & -> & Hk)]; [exists 0 | exists (S k)];
          (split; [lia|]); [by rewrite Hd | done].
      * intros ([|k] & -> & Hk); [left; lia|].
        right. exists k. split; [lia | done].
    + rewrite IH. split.
      * intros (k & -> & Hk). exists (S k). split; [lia | done].
      * intros ([|k] & -> & Hk); [by injection Hk|].
        exists k. split; [lia | done].
Qed.

Lemma mystery_indices_spec descs j :
  j ∈ mystery_indices descs ↔ descs !! j = Some FALLBACK.
Proof.
  unfold mystery_indices. rewrite mystery_indices_from_spec. split.
  - by intros (k & -> & Hk).
  - intros Hj. by exists j.
Qed.

Lemma mystery_indices_from_length i descs :
  length (mystery_indices_from i descs)
  = length (filter (fun d => d = FALLBACK) descs).
Proof.
  revert i. induction descs as [|d descs IH]; intros i; [done|].
  cbn [mystery_indices_from]. rewrite filter_cons.
  case_bool_decide; [rewrite decide_True by done | rewrite decide_False by done];
    cbn [length]; by rewrite IH.
Qed.

Lemma mystery_indices_in_range descs :
  Forall (fun i => i < length descs) (mystery_indices descs).
Proof.
  apply Forall_forall. intros i Hi%mystery_indices_spec.
  by eapply lookup_lt_Some.
Qed.

(** One turn of the retry loop. *)
Lemma retry_mystery_unfold title d rc w :
  retry_mystery title d rc w =
  if bool_decide (d = FALLBACK) && (rc <? 5) then
    let '(d', w') := generate_game_description title (sleep 60 w) in
    retry_mystery title d' (rc + 1) w'
  else (d, w).
Proof.
  funelim (retry_mystery title d rc w);
    repeat match goal with
           | H : _ = _ |- _ => rewrite H
           end; try reflexivity.
Qed.

Lemma retry_mystery_done title d rc w :
  d ≠ FALLBACK → retry_mystery title d rc w = (d, w).
Proof.
  intros Hd. rewrite retry_mystery_unfold.
  by rewrite bool_decide_eq_false_2 by done.
Qed.

(** The retry loop sends a request for each turn, at most [5 - rc] of them,
    and saves nothing. *)
Lemma retry_mystery_trace title d rc w :
  ∃ evs,
    trace (retry_mystery title d rc w).2 = trace w ++ evs ∧
    saved evs = [] ∧
    length (requested evs) ≤ 5 - rc.
Proof.
  remember (5 - rc) as fuel eqn:Hfuel. revert d rc w Hfuel.
  induction fuel as [fuel IH] using lt_wf_ind. intros d rc w Hfuel.
  rewrite retry_mystery_unfold.
  destruct (bool_decide (d = FALLBACK) && (rc <? 5)) eqn:Hgo.
  2:{ exists []. rewrite app_nil_r. split_and!; [done|done|cbn; lia]. }
  apply andb_true_iff in Hgo as [_ Hlt]. apply Nat.ltb_lt in Hlt.
  rewrite generate_game_description_eq.
  match goal with |- context [retry_mystery title ?d' (rc + 1) ?w'] =>
    destruct (IH (5 - (rc + 1)) ltac:(lia) d' (rc + 1) w' eq_refl)
      as (evs & Htr & Hsaved & Hreq) end.
  exists (Sleep 60 :: Request title :: evs).
  rewrite Htr. cbn [sleep emit trace]. rewrite <- !app_assoc. cbn [app].
  split_and!; [done|done|].
  rewrite requested_sleep, requested_request. cbn [length]. lia.
Qed.

(** The [for idx] loop: it never raises when the indices are in range; it
    keeps the length of the list and the entries at the other indices; it
    sends at most six requests for an index and saves nothing. *)
Lemma fix_entries_spec title idxs descs w :
  Forall (fun i => i < length descs) idxs →
  ∃ descs' w' evs,
    fix_entries title idxs descs w = Ok (descs', w') ∧
    length descs' = length descs ∧
    (∀ i, i ∉ idxs → descs' !! i = descs !! i) ∧
    trace w' = trace w ++ evs ∧
    saved evs = [] ∧
    length (requested evs) ≤ 6 * length idxs.
Proof.
  revert descs w. induction idxs as [|idx idxs IH]; intros descs w Hrange.
  - exists descs, w, []. rewrite app_nil_r. by split_and!.
  - apply Forall_cons in Hrange as [Hidx Hrange].
    cbn [fix_entries]. rewrite generate_game_description_eq.
    match goal with |- context [retry_mystery title ?d 0 ?w0] =>
      destruct (retry_mystery_trace title d 0 w0) as (evs1 & Htr1 & Hs1 & Hr1);
      destruct (retry_mystery title d 0 w0) as [nd w1] end.
    cbn [snd trace] in Htr1.
    unfold set_index.
    replace (Z.of_nat idx <? 0)%Z with false by (symmetry; apply Z.ltb_ge; lia).
    replace ((0 <=? Z.of_nat idx)%Z && (Z.of_nat idx <? Z.of_nat (length descs))%Z)
      with true
      by (symmetry; apply andb_true_iff;
          split; [apply Z.leb_le | apply Z.ltb_lt]; lia).
    cbn [bind]. rewrite Nat2Z.id.
    destruct (IH (<[idx := nd]> descs) (sleep 5 w1))
      as (descs' & w' & evs & Hrun & Hlen & Hother & Htr & Hs & Hr).
    { by rewrite length_insert. }
    exists descs', w', (Request title :: evs1 ++ Sleep 5 :: evs).
    rewrite Hrun, Hlen, length_insert, Htr. cbn [sleep emit trace].
    rewrite Htr1. rewrite <- !app_assoc. cbn [app].
    split_and!; try done.
    + intros i Hi. apply not_elem_of_cons in Hi as [Hne Hi].
      rewrite (Hother i Hi). by rewrite list_lookup_insert_ne.
    + change (saved (evs1 ++ Sleep 5 :: evs) = []).
      rewrite saved_app, Hs1. exact Hs.
    + rewrite requested_request, requested_app, requested_sleep.
      cbn [length]. rewrite length_app. lia.
Qed.

(** With a service that never leads to the fallback, the [for idx] loop
    leaves the fallback at none of the indices. *)
Lemma fix_entries_healthy title idxs descs w :
  (∀ k, desc_of (responses w k) ≠ FALLBACK) →
  Forall (fun i => i < length descs) idxs →
  ∃ descs' w',
    fix_entries title idxs descs w = Ok (descs', w') ∧
    (∀ k, desc_of (responses w' k) ≠ FALLBACK) ∧
    (∀ i d, descs' !! i = Some d →
            d ≠ FALLBACK ∨ ((i ∉ idxs) ∧ descs !! i = Some d)).
Proof.
  revert descs w. induction idxs as [|idx idxs IH]; intros descs w Hw Hrange.
  - exists descs, w. split_and!; [done|done|]. intros i d Hi. right.
    split; [apply not_elem_of_nil | done].
  - apply Forall_cons in Hrange as [Hidx Hrange].
    cbn [fix_entries]. rewrite generate_game_description_eq.
    rewrite retry_mystery_done by apply Hw.
    unfold set_index.
    replace (Z.of_nat idx <? 0)%Z with false by (symmetry; apply Z.ltb_ge; lia).
    replace ((0 <=? Z.of_nat idx)%Z && (Z.of_nat idx <? Z.of_nat (length descs))%Z)
      with true
      by (symmetry; apply andb_true_iff;
          split; [apply Z.leb_le | apply Z.ltb_lt]; lia).
    cbn [bind]. rewrite Nat2Z.id.
    match goal with |- context [fix_entries title idxs ?ds ?w1] =>
      destruct (IH ds w1) as (descs' & w' & Hrun & Hw' & Hall) end.
    { intros k. cbn [sleep emit responses]. apply Hw. }
    { by rewrite length_insert. }
    exists descs', w'. split_and!; [done|done|].
    intros i d Hi. destruct (Hall i d Hi) as [?|[Hnotin Hold]]; [by left|].
    destruct (decide (i = idx)) as [->|Hne].
    + left. rewrite list_lookup_insert_eq in Hold by done.
      injection Hold as <-. apply Hw.
    + right. rewrite list_lookup_insert_ne in Hold by done.
      split; [|done]. by apply not_elem_of_cons.
Qed.

Lemma mystery_indices_nil descs :
  FALLBACK ∉ descs → mystery_indices descs = [].
Proof.
  intros Hnot. destruct (mystery_indices descs) as [|i l] eqn:E; [done|].
  assert (Hi : i ∈ mystery_indices descs) by (rewrite E; by left).
  apply mystery_indices_spec, list_elem_of_lookup_2 in Hi. done.
Qed.

(** A file without the fallback phrase: nothing is done. *)
Lemma fix_items_nothing items (table : gmap string (list string)) w :
  Forall (fun item => FALLBACK ∉ item.2) items →
  fix_items items table w = Ok (table, w).
Proof.
  induction 1 as [|[t ds] items Hds Hitems IH]; [done|].
  cbn [fix_items]. rewrite mystery_indices_nil by done.
  by rewrite bool_decide_eq_true_2.
Qed.

(** The loop over the items never raises, and sends at most six requests for
    each entry that is the fallback. *)
Lemma fix_items_bound items (table : gmap string (list string)) w :
  ∃ final w' evs,
    fix_items items table w = Ok (final, w') ∧
    trace w' = trace w ++ evs ∧
    length (requested evs) ≤ 6 * fallback_count items.
Proof.
  revert table w. induction items as [|[t ds] items IH]; intros table w.
  - exists table, w, []. rewrite app_nil_r. split_and!; [done|done|cbn; lia].
  - cbn [fix_items]. unfold fallback_count. rewrite fmap_cons. cbn [sum_list snd].
    fold (fallback_count items). case_bool_decide as Hm.
    + destruct (IH table w) as (final & w' & evs & Hrun & Htr & Hreq).
      exists final, w', evs. split_and!; [done|done|unfold id; lia].
    + destruct (fix_entries_spec t (mystery_indices ds) ds w
                  (mystery_indices_in_range ds))
        as (ds' & w1 & evs1 & Hrun1 & _ & _ & Htr1 & _ & Hreq1).
      rewrite Hrun1. cbn [bind].
      match goal with |- context [fix_items items ?tb ?w2] =>
        destruct (IH tb w2) as (final & w' & evs & Hrun & Htr & Hreq) end.
      exists final, w', (evs1 ++ Save (<[t := ds']> table) :: evs).
      rewrite Hrun, Htr. cbn [emit trace]. rewrite Htr1, <- !app_assoc.
      split_and!; [done|done|].
      rewrite requested_app, requested_save, length_app.
      unfold mystery_indices in Hreq1.
      rewrite mystery_indices_from_length in Hreq1. unfold id. lia.
Qed.

(** The loop over the items of a dict: keys, lengths and the entries that
    are not the fallback are kept. *)
Lemma fix_items_spec items (table : gmap string (list string)) w :
  NoDup (items.*1) →
  (∀ t ds, (t, ds) ∈ items → table !! t = Some ds) →
  ∃ final w',
    fix_items items table w = Ok (final, w') ∧
    (∀ t, t ∉ items.*1 → final !! t = table !! t) ∧
    (∀ t ds, (t, ds) ∈ items →
       ∃ ds', final !! t = Some ds' ∧ length ds' = length ds ∧
              ∀ i d, ds !! i = Some d → d ≠ FALLBACK → ds' !! i = Some d).
Proof.
  revert table w. induction items as [|[t0 ds0] items IH]; intros table w Hnd Htable.
  - exists table, w. split_and!; [done|done|]. by intros t ds ?%elem_of_nil.
  - rewrite fmap_cons in Hnd. apply NoDup_cons in Hnd as [Hfresh Hnd].
    cbn [fst] in Hfresh.
    assert (Hitems : ∀ t ds, (t, ds) ∈ items → t ≠ t0).
    { intros t ds Hin ->. apply Hfresh.
      by apply (list_elem_of_fmap_2 fst _ (t0, ds)). }
    cbn [fix_items]. case_bool_decide as Hm.
    + destruct (IH table w Hnd) as (final & w' & Hrun & Hother & Hin).
      { intros t ds Ht. apply Htable. by right. }
      exists final, w'. split_and!; [done| |].
      * intros t Ht. rewrite fmap_cons in Ht.
        apply not_elem_of_cons in Ht as [_ Ht]. by apply Hother.
      * intros t ds [[= -> ->]|Ht]%elem_of_cons; [|by apply Hin].
        exists ds0. rewrite (Hother t0 Hfresh). split_and!; [|done|done].
        apply Htable. by left.
    + destruct (fix_entries_spec t0 (mystery_indices ds0) ds0 w
                  (mystery_indices_in_range ds0))
        as (ds' & w1 & evs1 & Hrun1 & Hlen1 & Hother1 & _).
      rewrite Hrun1. cbn [bind].
      match goal with |- context [fix_items items ?tb ?w2] =>
        destruct (IH tb w2 Hnd) as (final & w' & Hrun & Hother & Hin) end.
      { intros t ds Ht. rewrite lookup_insert_ne by (symmetry; by eapply Hitems).
        apply Htable. by right. }
      exists final, w'. split_and!; [done| |].
      * intros t Ht. rewrite fmap_cons in Ht.
        apply not_elem_of_cons in Ht as [Hne Ht]. cbn [fst] in Hne.
        rewrite (Hother t Ht). by rewrite lookup_insert_ne.
      * intros t ds [[= -> ->]|Ht]%elem_of_cons; [|by apply Hin].
        exists ds'. rewrite (Hother t0 Hfresh), lookup_insert_eq.
        split_and!; [done|done|].
        intros i d Hi Hd. rewrite Hother1; [done|].
        intros Hmi%mystery_indices_spec. congruence.
Qed.

(** With a service that never leads to the fallback, no entry of the items
    is left with the fallback. *)
Lemma fix_items_healthy items (table : gmap string (list string)) w :
  (∀ k, desc_of (responses w k) ≠ FALLBACK) →
  NoDup (items.*1) →
  ∃ final w',
    fix_items items table w = Ok (final, w') ∧
    (∀ t, t ∉ items.*1 → final !! t = table !! t) ∧
    (∀ t ds, (t, ds) ∈ items → table !! t = Some ds →
       ∃ ds', final !! t = Some ds' ∧ FALLBACK ∉ ds').
Proof.
  revert table w. induction items as [|[t0 ds0] items IH]; intros table w Hw Hnd.
  - exists table, w. split_and!; [done|done|]. by intros t ds ?%elem_of_nil.
  - rewrite fmap_cons in Hnd. apply NoDup_cons in Hnd as [Hfresh Hnd].
    cbn [fst] in Hfresh.
    assert (Hitems : ∀ t ds, (t, ds) ∈ items → t ≠ t0).
    { intros t ds Hin ->. apply Hfresh.
      by apply (list_elem_of_fmap_2 fst _ (t0, ds)). }
    cbn [fix_items]. case_bool_decide as Hm.
    + destruct (IH table w Hw Hnd) as (final & w' & Hrun & Hother & Hin).
      exists final, w'. split_and!; [done| |].
      * intros t Ht. rewrite fmap_cons in Ht.
        apply not_elem_of_cons in Ht as [_ Ht]. by apply Hother.
      * intros t ds [[= -> ->]|Ht]%elem_of_cons Hlook;
          [|by apply (Hin t ds)].
        exists ds0. rewrite (Hother t0 Hfresh). split; [done|].
        intros (i & Hi)%list_elem_of_lookup.
        apply mystery_indices_spec in Hi. rewrite Hm in Hi.
        by apply elem_of_nil in Hi.
    + destruct (fix_entries_healthy t0 (mystery_indices ds0) ds0 w Hw
                  (mystery_indices_in_range ds0))
        as (ds' & w1 & Hrun1 & Hw1 & Hall).
      rewrite Hrun1. cbn [bind].
      match goal with |- context [fix_items items ?tb ?w2] =>
        destruct (IH tb w2) as (final & w' & Hrun & Hother & Hin);
          [exact Hw1 | exact Hnd |] end.
      exists final, w'. split_and!; [done| |].
      * intros t Ht. rewrite fmap_cons in Ht.
        apply not_elem_of_cons in Ht as [Hne Ht]. cbn [fst] in Hne.
        rewrite (Hother t Ht). by rewrite lookup_insert_ne.
      * intros t ds [[= -> ->]|Ht]%elem_of_cons Hlook.
        -- exists ds'. rewrite (Hother t0 Hfresh), lookup_insert_eq.
           split; [done|].
           intros (i & Hi)%list_elem_of_lookup.
           destruct (Hall i FALLBACK Hi) as [?|[Hnotin Hold]]; [done|].
           by apply Hnotin, mystery_indices_spec.
        -- apply (Hin t ds Ht).
           rewrite lookup_insert_ne by (symmetry; by eapply Hitems). done.
Qed.

End FixFacts.

(** X15.  [fix_mystery_descriptions] never raises; it keeps the keys of the
    file, the length of every list and every entry that is not the fallback
    phrase. *)
Theorem fix_mystery_keeps_good_entries (items : list (string * list string))
    (w : world) :
  NoDup (items.*1) →
  ∃ final w',
    fix_mystery_descriptions items w = Ok (final, w') ∧
    (∀ t, t ∈ dom final ↔ t ∈ items.*1) ∧
    (∀ t ds, (t, ds) ∈ items →
       ∃ ds', final !! t = Some ds' ∧ length ds' = length ds ∧
              ∀ i d, ds !! i = Some d → d ≠ FALLBACK → ds' !! i = Some d).
Proof.
  intros Hnd. unfold fix_mystery_descriptions.
  destruct (fix_items_spec items (list_to_map items) w Hnd)
    as (final & w' & Hrun & Hother & Hin).
  { intros t ds Ht. by apply elem_of_list_to_map. }
  exists final, w'. split_and!; [done| |done].
  intros t. rewrite elem_of_dom. split.
  - intros Hsome. destruct (decide (t ∈ items.*1)) as [|Hnotin]; [done|].
    rewrite (Hother t Hnotin) in Hsome.
    apply not_elem_of_list_to_map in Hnotin. rewrite Hnotin in Hsome.
    by destruct Hsome.
  - intros ([t' ds] & -> & Ht)%list_elem_of_fmap. cbn [fst].
    destruct (Hin t' ds Ht) as (ds' & Hds' & _). rewrite Hds'. eauto.
Qed.

Lemma fix_mystery_keeps_good_entries_witness :
  ∃ final w',
    fix_mystery_descriptions
      [("Doom", ["Angry metal shotguns demon confetti"; FALLBACK])]
      (start Examples.flaky) = Ok (final, w') ∧
    (∀ t, t ∈ dom final ↔
          t ∈ [("Doom", ["Angry metal shotguns demon confetti"; FALLBACK])].*1) ∧
    (∀ t ds,
       (t, ds) ∈ [("Doom", ["Angry metal shotguns demon confetti"; FALLBACK])] →
       ∃ ds', final !! t = Some ds' ∧ length ds' = length ds ∧
              ∀ i d, ds !! i = Some d → d ≠ FALLBACK → ds' !! i = Some d).
Proof.
  apply (fix_mystery_keeps_good_entries
           [("Doom", ["Angry metal shotguns demon confetti"; FALLBACK])]
           (start Examples.flaky)).
  apply (bool_decide_unpack _). vm_compute. exact I.
Defined.

(** X16.  With a service none of whose responses leads to the fallback,
    [fix_mystery_descriptions] leaves no fallback phrase in the table. *)
Theorem fix_mystery_healthy_service (items : list (string * list string))
    (service : nat → response) :
  (∀ k, desc_of (service k) ≠ FALLBACK) →
  NoDup (items.*1) →
  ∃ final w',
    fix_mystery_descriptions items (start service) = Ok (final, w') ∧
    ∀ t ds, final !! t = Some ds → FALLBACK ∉ ds.
Proof.
  intros Hw Hnd. unfold fix_mystery_descriptions.
  destruct (fix_items_healthy items (list_to_map items) (start service) Hw Hnd)
    as (final & w' & Hrun & Hother & Hin).
  exists final, w'. split; [done|]. intros t ds Ht.
  destruct (decide (t ∈ items.*1)) as [Hint|Hnotin].
  - apply list_elem_of_fmap in Hint as ([t' ds0] & -> & Hint).
    assert (Hlook : (list_to_map items : gmap string (list string)) !! t'
                    = Some ds0) by (by apply elem_of_list_to_map).
    destruct (Hin t' ds0 Hint Hlook) as (ds' & Hds' & Hclean).
    cbn [fst] in Ht. congruence.
  - rewrite (Hother t Hnotin) in Ht.
    apply not_elem_of_list_to_map in Hnotin. congruence.
Qed.

Lemma fix_mystery_healthy_service_witness :
  ∃ final w',
    fix_mystery_descriptions
      [("Doom", ["Angry metal shotguns demon confetti"; FALLBACK])]
      (start Examples.healthy) = Ok (final, w') ∧
    ∀ t ds, final !! t = Some ds → FALLBACK ∉ ds.
Proof.
  apply (fix_mystery_healthy_service
           [("Doom", ["Angry metal shotguns demon confetti"; FALLBACK])]
           Examples.healthy).
  - intros k. vm_compute. discriminate.
  - apply (bool_decide_unpack _). vm_compute. exact I.
Defined.

(** X17.  On a file without the fallback phrase, [fix_mystery_descriptions]
    does nothing: no request, no sleep, no save, and the table of the file. *)
Theorem fix_mystery_nothing_to_fix (items : list (string * list string))
    (w : world) :
  Forall (fun item => FALLBACK ∉ item.2) items →
  fix_mystery_descriptions items w = Ok (list_to_map items, w).
Proof. apply fix_items_nothing. Qed.

Lemma fix_mystery_nothing_to_fix_witness :
  fix_mystery_descriptions [("Doom", ["Angry metal shotguns demon confetti"])]
    (start Examples.down)
  = Ok (list_to_map [("Doom", ["Angry metal shotguns demon confetti"])],
        start Examples.down).
Proof.
  apply (fix_mystery_nothing_to_fix
           [("Doom", ["Angry metal shotguns demon confetti"])]
           (start Examples.down)).
  apply (bool_decide_unpack _). vm_compute. exact I.
Defined.

(** X18.  [fix_mystery_descriptions] sends at most six requests for each
    entry of the file that is the fallback phrase (one, and five retries). *)
Theorem fix_mystery_requests_bound (items : list (string * list string))
    (service : nat → response) :
  ∃ final w',
    fix_mystery_descriptions items (start service) = Ok (final, w') ∧
    length (requested (trace w')) ≤ 6 * fallback_count items.
Proof.
  unfold fix_mystery_descriptions.
  destruct (fix_items_bound items (list_to_map items) (start service))
    as (final & w' & evs & Hrun & Htr & Hreq).
  exists final, w'. split; [done|]. by rewrite Htr.
Qed.

(** ** More about [create_questions] *)

Section QuestionsMore.

Variable descriptions : gmap string (list string).

Lemma question_rounds_sound n available_games questions g questions' g' :
  question_rounds n descriptions available_games questions g
    = Ok (questions', g') →
  ∃ new, questions' = questions ++ new ∧ length new = n ∧
    Forall (fun q =>
      length (choices q) = 4 ∧
      correct_answer q ∈ choices q ∧
      (∀ c, c ∈ choices q → c ∈ game <$> available_games) ∧
      ∃ candidates, descriptions !! correct_answer q = Some candidates ∧
                    description q ∈ candidates) new.
Proof.
  revert available_games questions g.
  induction n as [|n IH]; intros available_games questions g.
  - intros [= <- _]. exists []. by rewrite app_nil_r.
  - cbn [question_rounds].
    intros ([q pool] & g1 & Hq & Hrest)%bindM_ok.
    apply next_question_ok in Hq
      as (j & rg & same & first & second & i1 & i2 & Hj & -> & Hans & Hsame
          & _ & Hi1 & Hi2 & Hperm & Hdesc).
    apply IH in Hrest as (new & -> & Hlen & Hnew).
    exists (q :: new). rewrite <- app_assoc.
    split; [done|]. split; [simpl; lia|].
    assert (Hsub : ∀ x, x ∈ delete j available_games → x ∈ available_games).
    { intros x Hx. eapply elem_of_sublist; [exact Hx | apply sublist_delete]. }
    constructor.
    + split_and!.
      * by rewrite Hperm.
      * rewrite Hperm, Hans. by left.
      * intros c. rewrite Hperm.
        assert (Hfirst : first ∈ delete j available_games).
        { apply list_elem_of_lookup_2 in Hi1.
          by apply list_elem_of_filter in Hi1 as [_ ?]. }
        assert (Hsecond : second ∈ delete j available_games).
        { apply list_elem_of_lookup_2 in Hi2.
          assert (Hs : second ∈ filter (fun x => genre x ≠ genre rg)
                                  (delete j available_games)).
          { eapply elem_of_sublist; [exact Hi2 | apply sublist_delete]. }
          by apply list_elem_of_filter in Hs as [_ ?]. }
        rewrite !elem_of_cons, elem_of_nil.
        intros [->|[->|[->|[->|[]]]]]; apply list_elem_of_fmap_2; auto.
        by eapply list_elem_of_lookup_2.
      * by rewrite Hans.
    + eapply Forall_impl; [exact Hnew|]. cbn beta.
      intros q' (H4 & Hc & Hall & Hd). split_and!; [done|done| |done].
      intros c Hcin. eapply fmap_delete_subseteq. by apply Hall.
Qed.

(** A round that succeeds leaves two games of another genre in the pool. *)
Lemma question_rounds_needs n available_games questions g questions' g' :
  question_rounds (S n) descriptions available_games questions g
    = Ok (questions', g') →
  n + 3 ≤ length available_games.
Proof.
  revert available_games questions g.
  induction n as [|n IH]; intros available_games questions g;
    cbn [question_rounds];
    intros ([q pool] & g1 & Hq & Hrest)%bindM_ok;
    apply next_question_ok in Hq
      as (j & rg & same & first & second & i1 & i2 & Hj & -> & _ & _
          & _ & Hi1 & Hi2 & _).
  - apply lookup_lt_Some in Hi2. rewrite length_delete in Hi2 by eauto.
    pose proof (length_filter (fun x => genre x ≠ genre rg)
                  (delete j available_games)) as Hf.
    rewrite length_delete in Hf by eauto.
    apply lookup_lt_Some in Hj. lia.
  - apply IH in Hrest. rewrite length_delete in Hrest by eauto.
    apply lookup_lt_Some in Hj. lia.
Qed.

End QuestionsMore.

(** X19.  In every session that [create_questions] produces, each question
    has four choices, its correct answer among them, every choice is a title
    of the catalog, and its description is one of those stored for the
    correct answer. *)
Theorem create_questions_sound games descriptions g questions g' :
  create_questions games descriptions g = Ok (questions, g') →
  Forall (fun q =>
    length (choices q) = 4 ∧
    correct_answer q ∈ choices q ∧
    (∀ c, c ∈ choices q → c ∈ game <$> games) ∧
    ∃ candidates, descriptions !! correct_answer q = Some candidates ∧
                  description q ∈ candidates) questions.
Proof.
  intros Hq. unfold create_questions in Hq.
  by apply question_rounds_sound in Hq as (new & -> & _ & Hnew).
Qed.

Lemma create_questions_sound_witness :
  ∃ questions,
    Forall (fun q =>
      length (choices q) = 4 ∧
      correct_answer q ∈ choices q ∧
      (∀ c, c ∈ choices q → c ∈ game <$> Examples.paired_catalog) ∧
      ∃ candidates,
        Examples.table_for Examples.paired_catalog !! correct_answer q
          = Some candidates ∧
        description q ∈ candidates) questions.
Proof.
  eexists.
  eapply (create_questions_sound Examples.paired_catalog
            (Examples.table_for Examples.paired_catalog) Examples.zeros).
  vm_compute. reflexivity.
Defined.

(** X20.  [create_questions] raises on every catalog of fewer than seven
    games, whatever the descriptions and the random draws: the fifth round
    needs two games of another genre after five were taken out. *)
Theorem create_questions_small_catalog games descriptions g :
  length games < 7 → ∃ e, create_questions games descriptions g = Raise e.
Proof.
  intros Hlen.
  destruct (create_questions games descriptions g) as [[qs g']|e] eqn:E;
    [|eauto].
  unfold create_questions in E. apply question_rounds_needs in E. lia.
Qed.

Lemma create_questions_small_catalog_witness :
  ∃ e, create_questions (take 6 Examples.catalog)
         (Examples.table_for Examples.catalog) Examples.zeros = Raise e.
Proof.
  apply (create_questions_small_catalog (take 6 Examples.catalog)).
  vm_compute. lia.
Defined.

Section QuestionsSucceed.

Variable descriptions : gmap string (list string).

Lemma filter_count_split {A} (P : A → Prop) `{!∀ x, Decision (P x)} (l : list A) :
  length (filter P l) + length (filter (fun x => ¬ P x) l) = length l.
Proof.
  induction l as [|x l IH]; [done|]. rewrite !filter_cons.
  destruct (decide (P x)) as [HP|HP].
  - rewrite decide_False by tauto. cbn [length]. lia.
  - rewrite decide_True by done. cbn [length]. lia.
Qed.

Lemma genre_count_delete genre_name (l : list Game) j x :
  l !! j = Some x →
  genre_count genre_name l =
  (if decide (genre x = genre_name) then 1 else 0)
  + genre_count genre_name (delete j l).
Proof.
  intros Hj. unfold genre_count.
  rewrite (delete_Permutation l j x Hj) at 1. rewrite filter_cons.
  by destruct (decide (genre x = genre_name)).
Qed.

(** A round succeeds when the pool has at least [m + 2] games, no genre has
    more than [m] of them, and every game has a description. *)
Lemma next_question_succeeds m (pool : list Game) g :
  (∀ genre_name, genre_count genre_name pool ≤ m) →
  m + 2 ≤ length pool →
  (∀ x, x ∈ pool →
     ∃ candidates, descriptions !! game x = Some candidates ∧ candidates ≠ []) →
  ∃ q j g',
    is_Some (pool !! j) ∧
    next_question descriptions pool g = Ok ((q, delete j pool), g').
Proof.
  intros Hcount Hlen Hdesc. unfold next_question.
  destruct (randint_range 0 (len pool - 1) g) as (idx & g1 & Hidx & Hr);
    [unfold len; lia|].
  rewrite (bindM_step _ _ _ _ _ Hidx).
  destruct (pop_in_range pool idx) as (rg & Hrg & Hpop); [lia|].
  rewrite Hpop.
  rewrite (bindM_step _ _ g1 (rg, delete (Z.to_nat idx) pool) g1) by reflexivity.
  set (pool' := delete (Z.to_nat idx) pool).
  set (same := filter (fun x => genre x = genre rg) pool').
  set (diff := filter (fun x => genre x ≠ genre rg) pool').
  assert (Hdiff : 2 ≤ length diff).
  { pose proof (filter_count_split (fun x => genre x = genre rg) pool') as Hs.
    pose proof (genre_count_delete (genre rg) pool _ _ Hrg) as Hc.
    rewrite decide_True in Hc by done.
    specialize (Hcount (genre rg)). unfold genre_count in Hc, Hcount.
    assert (Hl : length pool' = length pool - 1)
      by (apply length_delete; eauto).
    fold pool' in Hc. fold same in Hc.
    change (length same + length diff = length pool') in Hs. lia. }
  assert (Hsame : ∃ s g2,
    (if bool_decide (same ≠ [])
     then bindM (choice same) (fun x => ret (game x))
     else bindM (choice diff) (fun x => ret (game x))) g1 = Ok (s, g2)).
  { case_bool_decide as Hne.
    - destruct (choice_nonempty same g1 Hne) as (x & g2 & Hx & _).
      exists (game x), g2. by rewrite (bindM_step _ _ _ _ _ Hx).
    - destruct (choice_nonempty diff g1) as (x & g2 & Hx & _).
      { intros Hnil. rewrite Hnil in Hdiff. simpl in Hdiff. lia. }
      exists (game x), g2. by rewrite (bindM_step _ _ _ _ _ Hx). }
  destruct Hsame as (s & g2 & Hs).
  rewrite (bindM_step _ _ _ _ _ Hs).
  destruct (randint_range 0 (len diff - 1) g2) as (idx1 & g3 & Hidx1 & Hr1);
    [unfold len; lia|].
  rewrite (bindM_step _ _ _ _ _ Hidx1).
  destruct (pop_in_range diff idx1) as (first & Hfirst & Hpop1); [lia|].
  rewrite Hpop1.
  rewrite (bindM_step _ _ g3 (first, delete (Z.to_nat idx1) diff) g3)
    by reflexivity.
  set (diff1 := delete (Z.to_nat idx1) diff).
  assert (Hdiff1 : 1 ≤ length diff1).
  { unfold diff1. rewrite length_delete by eauto. lia. }
  destruct (randint_range 0 (len diff1 - 1) g3) as (idx2 & g4 & Hidx2 & Hr2);
    [unfold len; lia|].
  rewrite (bindM_step _ _ _ _ _ Hidx2).
  destruct (pop_in_range diff1 idx2) as (second & Hsecond & Hpop2); [lia|].
  rewrite Hpop2.
  rewrite (bindM_step _ _ g4 (second, delete (Z.to_nat idx2) diff1) g4)
    by reflexivity.
  destruct (Hdesc rg) as (candidates & Hcand & Hne);
    [by eapply list_elem_of_lookup_2|].
  unfold getitem. rewrite Hcand.
  rewrite (bindM_step _ _ g4 candidates g4) by reflexivity.
  destruct (choice_nonempty candidates g4 Hne) as (d & g5 & Hd & _).
  rewrite (bindM_step _ _ _ _ _ Hd).
  match goal with |- context [shuffle ?l] =>
    destruct (shuffle_from_total (length l - 1) l g5) as (sh & g6 & Hsh) end.
  unfold shuffle. rewrite (bindM_step _ _ _ _ _ Hsh).
  eexists _, (Z.to_nat idx), g6. split; [eauto|]. reflexivity.
Qed.

Lemma question_rounds_succeed m n (pool : list Game) questions g :
  (∀ genre_name, genre_count genre_name pool ≤ m) →
  m + 1 + n ≤ length pool →
  (∀ x, x ∈ pool →
     ∃ candidates, descriptions !! game x = Some candidates ∧ candidates ≠ []) →
  ∃ questions' g',
    question_rounds n descriptions pool questions g = Ok (questions', g').
Proof.
  revert pool questions g.
  induction n as [|n IH]; intros pool questions g Hcount Hlen Hdesc.
  - by eexists _, _.
  - cbn [question_rounds].
    destruct (next_question_succeeds m pool g Hcount ltac:(lia) Hdesc)
      as (q & j & g1 & [x Hj] & Hq).
    rewrite (bindM_step _ _ _ _ _ Hq).
    apply IH.
    + intros genre_name. specialize (Hcount genre_name).
      rewrite (genre_count_delete genre_name pool j x Hj) in Hcount. lia.
    + rewrite length_delete by eauto. lia.
    + intros y Hy. apply Hdesc.
      eapply elem_of_sublist; [exact Hy | apply sublist_delete].
Qed.

End QuestionsSucceed.

(** X21.  [create_questions] succeeds, whatever the random draws, on a
    catalog in which no genre has more than [m] games, which has at least
    [m + 6] games, and each of whose titles has a description. *)
Theorem create_questions_succeeds (m : nat) games descriptions g :
  (∀ genre_name, genre_count genre_name games ≤ m) →
  m + 6 ≤ length games →
  (∀ x, x ∈ games →
     ∃ candidates, descriptions !! game x = Some candidates ∧ candidates ≠ []) →
  ∃ questions g', create_questions games descriptions g = Ok (questions, g').
Proof.
  intros Hcount Hlen Hdesc. unfold create_questions.
  apply (question_rounds_succeed descriptions m); [done|lia|done].
Qed.

Lemma create_questions_succeeds_witness :
  ∃ questions g',
    create_questions Examples.paired_catalog
      (Examples.table_for Examples.paired_catalog) Examples.zeros
    = Ok (questions, g').
Proof.
  apply (create_questions_succeeds 2 Examples.paired_catalog
           (Examples.table_for Examples.paired_catalog) Examples.zeros).
  - intros genre_name. unfold genre_count, Examples.paired_catalog.
    repeat (rewrite filter_cons; cbn [genre];
            case_decide; [subst|]; try congruence);
      rewrite ?filter_nil; cbn [length]; lia.
  - vm_compute. lia.
  - intros x Hx. unfold Examples.paired_catalog in Hx.
    repeat (apply elem_of_cons in Hx as [->|Hx];
            [eexists; split; [vm_compute; reflexivity | done]|]).
    by apply elem_of_nil in Hx.
Defined.

(** ** The session through a quiz *)

Section SessionFacts.

Lemma post_in_progress (k : nat) (sc : Z) qs q a c :
  qs !! k = Some q → index (choices q) a = Ok c →
  ∃ fb,
    post (in_progress (Z.of_nat k) sc qs) a =
    Ok (in_progress (Z.of_nat (S k))
          (sc + if bool_decide (c = correct_answer q) then 1 else 0) qs, fb).
Proof.
  intros Hq Hc. unfold post, in_progress.
  cbn [CURRENT_QUESTION_IDX SCORE QUESTIONS get getkey bind].
  rewrite (index_nat _ _ _ Hq). cbn [bind]. rewrite Hc. cbn [bind].
  replace (Z.of_nat (S k)) with (Z.of_nat k + 1)%Z by lia.
  destruct (bool_decide (c = correct_answer q));
    cbn [CURRENT_QUESTION_IDX SCORE QUESTIONS get getkey bind];
    rewrite ?Z.add_0_r; destruct (_ <? _)%Z; eauto.
Qed.

Lemma post_raises (k sc : Z) qs a e :
  post (in_progress k sc qs) a = Raise e → e = IndexError.
Proof.
  unfold post, in_progress.
  cbn [CURRENT_QUESTION_IDX SCORE QUESTIONS get getkey bind].
  assert (Hidx : ∀ A (l : list A) i e', index l i = Raise e' → e' = IndexError).
  { intros A l i e'. unfold index. destruct (_ && _); [|by intros [= <-]].
    destruct (l !! _); [discriminate | by intros [= <-]]. }
  destruct (index qs k) as [q|e1] eqn:Hq; cbn [bind];
    [|intros [= <-]; by eapply Hidx].
  destruct (index (choices q) a) as [c|e2] eqn:Hc; cbn [bind];
    [|intros [= <-]; by eapply Hidx].
  destruct (bool_decide (c = correct_answer q));
    cbn [CURRENT_QUESTION_IDX SCORE QUESTIONS get getkey bind];
    destruct (_ <? _)%Z; discriminate.
Qed.

Lemma post_ok_question (k : nat) (sc : Z) qs a r :
  post (in_progress (Z.of_nat k) sc qs) a = Ok r →
  ∃ q c, qs !! k = Some q ∧ index (choices q) a = Ok c.
Proof.
  unfold post, in_progress.
  cbn [CURRENT_QUESTION_IDX SCORE QUESTIONS get getkey bind].
  destruct (index qs (Z.of_nat k)) as [q|e1] eqn:Hq; cbn [bind]; [|discriminate].
  destruct (index (choices q) a) as [c|e2] eqn:Hc; cbn [bind]; [|discriminate].
  intros _. exists q, c. split; [|done].
  unfold index in Hq. destruct (_ && _); [|discriminate].
  replace (if (Z.of_nat k <? 0)%Z then _ else _) with (Z.of_nat k) in Hq
    by (destruct (Z.of_nat k <? 0)%Z eqn:E; [apply Z.ltb_lt in E; lia | done]).
  rewrite Nat2Z.id in Hq. destruct (qs !! k); [congruence | discriminate].
Qed.

Lemma play_in_progress answers (k : nat) (sc : Z) qs s' :
  k ≤ length qs →
  play (in_progress (Z.of_nat k) sc qs) answers = Ok s' →
  s' = in_progress (Z.of_nat (k + length answers))
         (sc + correct_picks (drop k qs) answers) qs ∧
  k + length answers ≤ length qs.
Proof.
  revert k sc. induction answers as [|a answers IH]; intros k sc Hk.
  - intros [= <-]. cbn [length play]. rewrite Nat.add_0_r.
    split; [|lia]. f_equal. destruct (drop k qs); cbn; lia.
  - cbn [play]. destruct (post (in_progress (Z.of_nat k) sc qs) a)
      as [[s1 fb]|e] eqn:Hpost; cbn [bind]; [|discriminate].
    destruct (post_ok_question k sc qs a _ Hpost) as (q & c & Hq & Hc).
    destruct (post_in_progress k sc qs q a c Hq Hc) as [fb' Hpost'].
    rewrite Hpost' in Hpost. injection Hpost as <- <-.
    intros Hplay. apply IH in Hplay as [-> Hlen];
      [|by apply lookup_lt_Some in Hq].
    rewrite (drop_S _ _ _ Hq). cbn [correct_picks length].
    unfold picks_correct. rewrite Hc.
    split; [|lia]. f_equal; [f_equal; lia|].
    rewrite Z.add_assoc. done.
Qed.

Lemma play_raises answers (k sc : Z) qs e :
  (0 ≤ k)%Z → play (in_progress k sc qs) answers = Raise e → e = IndexError.
Proof.
  revert k sc. induction answers as [|a answers IH]; intros k sc Hk;
    [discriminate|].
  cbn [play]. destruct (post (in_progress k sc qs) a)
    as [[s1 fb]|e1] eqn:Hpost; cbn [bind].
  - replace k with (Z.of_nat (Z.to_nat k)) in Hpost by lia.
    destruct (post_ok_question _ sc qs a _ Hpost) as (q & c & Hq & Hc).
    destruct (post_in_progress _ sc qs q a c Hq Hc) as [fb' Hpost'].
    rewrite Hpost' in Hpost. injection Hpost as <- <-.
    apply IH. lia.
  - intros [= <-]. by eapply post_raises.
Qed.

Lemma correct_picks_bounds qs answers :
  (0 ≤ correct_picks qs answers ≤ Z.of_nat (length answers))%Z.
Proof.
  revert answers. induction qs as [|q qs IH]; intros [|a answers];
    cbn [correct_picks length]; try lia.
  specialize (IH answers). destruct (picks_correct q a); lia.
Qed.

End SessionFacts.

(** X22.  After a sequence of answers to a fresh quiz that raises nothing,
    the session holds the number of answers as the index of the current
    question, the number of correct ones as the score, and the questions as
    they were; there were no more answers than questions. *)
Theorem play_score (questions : list Question) (answers : list Z)
    (session' : Session) :
  play (fresh questions) answers = Ok session' →
  session' = in_progress (Z.of_nat (length answers))
               (correct_picks questions answers) questions ∧
  length answers ≤ length questions ∧
  (0 ≤ correct_picks questions answers ≤ Z.of_nat (length answers))%Z.
Proof.
  intros Hplay.
  apply (play_in_progress answers 0 0) in Hplay as [-> Hlen]; [|lia].
  split; [done|]. split; [lia | apply correct_picks_bounds].
Qed.

Lemma play_score_witness :
  in_progress 1 1 [Examples.question]
  = in_progress (Z.of_nat (length [3%Z]))
      (correct_picks [Examples.question] [3%Z]) [Examples.question] ∧
  length [3%Z] ≤ length [Examples.question] ∧
  (0 ≤ correct_picks [Examples.question] [3%Z] ≤ Z.of_nat (length [3%Z]))%Z.
Proof.
  apply (play_score [Examples.question] [3%Z]). vm_compute. reflexivity.
Defined.

(** X23.  More answers to a fresh quiz than it has questions raise
    [IndexError]. *)
Theorem play_too_many_answers (questions : list Question) (answers : list Z) :
  length questions < length answers →
  play (fresh questions) answers = Raise IndexError.
Proof.
  intros Hlen.
  destruct (play (fresh questions) answers) as [s'|e] eqn:Hplay.
  - apply (play_in_progress answers 0 0) in Hplay as [_ Hle]; lia.
  - apply play_raises in Hplay; [by subst | lia].
Qed.

Lemma play_too_many_answers_witness :
  play (fresh [Examples.question]) [3%Z; 0%Z] = Raise IndexError.
Proof.
  apply (play_too_many_answers [Examples.question] [3%Z; 0%Z]).
  vm_compute. lia.
Defined.

(** X24.  After answers to a fresh quiz that raise nothing, the [/results]
    route shows the number of correct answers out of 5, and the trophy
    exactly when five answers were correct. *)
Theorem results_after_play (questions : list Question) (answers : list Z)
    (session' : Session) :
  play (fresh questions) answers = Ok session' →
  r_score (results session')
    = pretty (correct_picks questions answers) +:+ " out of 5" ∧
  (r_emoji (results session') = Trophy ↔
   correct_picks questions answers = 5%Z).
Proof.
  intros Hplay. apply play_score in Hplay as (-> & _ & _).
  unfold results, in_progress. cbn [SCORE get].
  set (score := correct_picks questions answers).
  case_bool_decide as H5; [by rewrite H5|].
  split; [by repeat destruct (_ <=? _)%Z|].
  split; [|done]. by repeat destruct (_ <=? _)%Z.
Qed.

Lemma results_after_play_witness :
  r_score (results (in_progress 1 1 [Examples.question]))
    = pretty (correct_picks [Examples.question] [3%Z]) +:+ " out of 5" ∧
  (r_emoji (results (in_progress 1 1 [Examples.question])) = Trophy ↔
   correct_picks [Examples.question] [3%Z] = 5%Z).
Proof.
  apply (results_after_play [Examples.question] [3%Z]).
  vm_compute. reflexivity.
Defined.

(** ** The question view *)

Section ViewFacts.

Lemma AnswerButton_ok choice (i : nat) :
  i < 4 →
  ∃ b, AnswerButton choice (Z.of_nat i) = Ok b ∧
       label b = choice ∧
       hx_vals b = choice_idx_vals (Z.of_nat i) ∧
       hx_post b = "/answer".
Proof.
  intros Hi.
  destruct i as [|[|[|[|i]]]]; [| | | |lia];
    (eexists; split; [reflexivity|]; by split_and!).
Qed.

Lemma AnswerButton_raise choice (i : nat) :
  4 ≤ i → AnswerButton choice (Z.of_nat i) = Raise IndexError.
Proof.
  intros Hi. unfold AnswerButton, color_names.
  destruct (index_four "green" "purple" "orange" "pink" (Z.of_nat i))
    as (_ & _ & Hraise).
  rewrite Hraise by lia. done.
Qed.

Lemma answer_buttons_from_ok (i : nat) choices :
  i + length choices ≤ 4 →
  ∃ bs,
    answer_buttons_from i choices = Ok bs ∧
    length bs = length choices ∧
    ∀ k b, bs !! k = Some b →
           choices !! k = Some (label b) ∧
           hx_vals b = choice_idx_vals (Z.of_nat (i + k)) ∧
           hx_post b = "/answer".
Proof.
  revert i. induction choices as [|c choices IH]; intros i Hlen.
  - exists []. split_and!; [done|done|]. by intros k b ?.
  - cbn [length] in Hlen. cbn [answer_buttons_from].
    destruct (AnswerButton_ok c i) as (b & -> & Hlabel & Hvals & Hpost); [lia|].
    destruct (IH (S i)) as (bs & -> & Hbs & Hall); [lia|].
    cbn [bind]. exists (b :: bs). split_and!; [done|cbn; lia|].
    intros [|k] b'.
    + intros [= <-]. rewrite Nat.add_0_r. by rewrite Hlabel.
    + intros Hk. destruct (Hall k b' Hk) as (Hc & Hv & Hp).
      split_and!; [done| |done]. rewrite Hv. do 2 f_equal. lia.
Qed.

Lemma answer_buttons_from_raise (i : nat) choices :
  i ≤ 4 → 4 < i + length choices →
  answer_buttons_from i choices = Raise IndexError.
Proof.
  revert i. induction choices as [|c choices IH]; intros i Hi Hlen.
  - cbn [length] in Hlen. lia.
  - cbn [length] in Hlen. cbn [answer_buttons_from].
    destruct (decide (i = 4)) as [->|Hne].
    + by rewrite (AnswerButton_raise c 4).
    + destruct (AnswerButton_ok c i) as (b & -> & _); [lia|].
      cbn [bind]. by rewrite IH by lia.
Qed.

End ViewFacts.

(** X25.  [render_question] makes one button for each choice, in order:
    button [i] shows choice [i] and posts [choice_idx] [i] to [/answer], where
    index [i] selects the choice that the button shows.  With more than four
    choices it raises [IndexError] (there are four colours). *)
Theorem render_question_buttons (q : Question) (q_index : Z) :
  (length (choices q) ≤ 4 →
   ∃ view,
     render_question q q_index = Ok view ∧
     length (q_buttons view) = length (choices q) ∧
     ∀ i b, q_buttons view !! i = Some b →
            hx_post b = "/answer" ∧
            hx_vals b = choice_idx_vals (Z.of_nat i) ∧
            index (choices q) (Z.of_nat i) = Ok (label b)) ∧
  (4 < length (choices q) → render_question q q_index = Raise IndexError).
Proof.
  unfold render_question. split.
  - intros Hlen.
    destruct (answer_buttons_from_ok 0 (choices q)) as (bs & Hbs & Hl & Hall);
      [lia|].
    rewrite Hbs. cbn [bind]. eexists. split; [reflexivity|].
    cbn [q_buttons]. split; [done|]. intros i b Hb.
    destruct (Hall i b Hb) as (Hc & Hv & Hp).
    split_and!; [done | done | by apply index_nat].
  - intros Hlen. by rewrite answer_buttons_from_raise by lia.
Qed.

(** X26.  Whenever [create_questions] succeeds, the [/generate_questions]
    route succeeds: it stores the five questions with index 0 and score 0,
    and shows question 1 of 5 with four buttons, the view that the
    [/question] route shows for that session. *)
Theorem generate_questions_starts games descriptions session g questions g' :
  create_questions games descriptions g = Ok (questions, g') →
  ∃ view,
    generate_questions games descriptions session g
      = Ok ((fresh questions, view), g') ∧
    question (fresh questions) = Ok view ∧
    length questions = 5 ∧
    q_heading view = "Question 1 of 5" ∧
    length (q_buttons view) = 4.
Proof.
  intros Hq.
  pose proof Hq as Hsound. unfold create_questions in Hsound.
  apply question_rounds_sound in Hsound as (new & Hnew & Hlen & Hall).
  cbn [app] in Hnew. subst new.
  destruct questions as [|q0 questions]; [discriminate|].
  apply Forall_cons in Hall as [(H4 & _) _].
  destruct (render_question_buttons q0 0) as [Hrender _].
  destruct Hrender as (view & Hview & Hbuttons & _); [lia|].
  exists view. unfold generate_questions.
  rewrite (bindM_step _ _ _ _ _ Hq).
  rewrite index_0.
  rewrite (bindM_step _ _ g' q0 g') by reflexivity.
  rewrite Hview.
  rewrite (bindM_step _ _ g' view g') by reflexivity.
  split_and!; [done| |done| |lia].
  - unfold question, fresh, in_progress.
    cbn [CURRENT_QUESTION_IDX QUESTIONS get getkey bind].
    by rewrite index_0.
  - unfold render_question in Hview.
    destruct (answer_buttons_from 0 (choices q0)); cbn [bind] in Hview;
      [|discriminate].
    by injection Hview as <-.
Qed.

Lemma generate_questions_starts_witness :
  ∃ questions view g',
    generate_questions Examples.paired_catalog
      (Examples.table_for Examples.paired_catalog) Examples.session
      Examples.zeros = Ok ((fresh questions, view), g') ∧
    question (fresh questions) = Ok view ∧
    length questions = 5 ∧
    q_heading view = "Question 1 of 5" ∧
    length (q_buttons view) = 4.
Proof.
  destruct (create_questions Examples.paired_catalog
              (Examples.table_for Examples.paired_catalog) Examples.zeros)
    as [[questions g']|e] eqn:E; [|vm_compute in E; discriminate].
  destruct (generate_questions_starts Examples.paired_catalog
              (Examples.table_for Examples.paired_catalog) Examples.session
              Examples.zeros questions g' E) as (view & H).
  by exists questions, view, g'.
Defined.

(** X27.  After the [/] route has cleared the session, the [/answer] and
    [/question] routes raise [KeyError], whatever the session held before. *)
Theorem home_then_answer (session : Session) (a : Z) (answers : list Z) :
  play (home session) (a :: answers) = Raise KeyError ∧
  question (home session) = Raise KeyError.
Proof. done. Qed.
